(** * Replay memory, Q-policy and training steps of the pyagents library

    A shallow embedding of
    - [src/pyagents/memory/prioritizedbuffer.py] (class [PrioritizedBuffer]),
    - [src/pyagents/policies/qpolicy.py] (class [QPolicy]),
    - [src/agents/dqn_agent.py] (class [DQNAgent]) and
    - [src/pyagents/agents/vpg.py] (the returns loop and the non-finite
      loss guard of [VPG._train]).

    Numbers.  Python floats are idealised: stored quantities (rewards,
    priorities, the annealing state, network parameters) are rationals [Q],
    so every definition over them evaluates; [np.power] with a real
    exponent has no rational counterpart and is [Rpower] on the reals for a
    positive base (the only bases the statements admit), the rationals being
    injected with [Q2R].  Equality of rationals computed by
    arithmetic is [==] ([Qeq]); a value that is only stored and read back
    is compared with [=].  Integers of a fixed width keep it: the int32
    step counter of [DQNAgent] wraps around, and an integer numpy array
    drops the fraction of what is stored in it. *)

From Stdlib Require Import QArith Qabs Qminmax Qpower Qround Reals Qreals Psatz.
From stdpp Require Import gmap strings list.

Local Open Scope nat_scope.

(** ** Python exceptions and outcomes *)

Inductive exn : Type :=
| KeyError (key : string)      (* dict lookup with a string key *)
| SlotKeyError (slot : nat)    (* dict lookup with an integer key *)
| IndexError
| TypeError
| ValueError
| AssertionError
| AttributeError
| ZeroDivisionError.

(** A call that does not touch mutable state. *)
Inductive result (A : Type) : Type :=
| Ok (a : A)
| Raise (e : exn).
Arguments Ok {A} a.
Arguments Raise {A} e.

Definition rbind {A B} (r : result A) (k : A -> result B) : result B :=
  match r with
  | Ok a => k a
  | Raise e => Raise e
  end.

(** A method call on an object of state [S]: it returns a value or raises,
    and either way leaves the object in some state (what was mutated before
    the exception stays mutated). *)
Inductive outcome (S A : Type) : Type :=
| Return (a : A) (s : S)
| Throw (e : exn) (s : S).
Arguments Return {S A} a s.
Arguments Throw {S A} e s.

Definition M (S A : Type) : Type := S -> outcome S A.

Definition ret {S A} (a : A) : M S A := fun s => Return a s.
Definition throw {S A} (e : exn) : M S A := fun s => Throw e s.
Definition bind {S A B} (m : M S A) (k : A -> M S B) : M S B :=
  fun s => match m s with
           | Return a s' => k a s'
           | Throw e s' => Throw e s'
           end.
Definition lift {S A} (r : result A) : M S A :=
  fun s => match r with
           | Ok a => Return a s
           | Raise e => Throw e s
           end.
Definition gets {S A} (f : S -> A) : M S A := fun s => Return (f s) s.
Definition modify {S} (f : S -> S) : M S unit := fun s => Return tt (f s).

Definition final_state {S A} (o : outcome S A) : S :=
  match o with
  | Return _ s => s
  | Throw _ s => s
  end.

#[global] Instance result_ret : MRet result := fun _ a => Ok a.
#[global] Instance result_bind : MBind result := fun _ _ k r => rbind r k.
#[global] Instance M_ret {S} : MRet (M S) := fun _ a => ret a.
#[global] Instance M_bind {S} : MBind (M S) := fun _ _ k m => bind m k.

(** [for x in xs: body x] *)
Fixpoint for_each {S A} (xs : list A) (body : A -> M S unit) : M S unit :=
  match xs with
  | [] => ret tt
  | x :: rest => bind (body x) (fun _ => for_each rest body)
  end.

(** [range(n)] *)
Definition range (n : nat) : list nat := seq 0 n.

(** [xs[i]] on a Python list or a 1-D array. *)
Definition getitem {A} (xs : list A) (i : nat) : result A :=
  match xs !! i with
  | Some x => Ok x
  | None => Raise IndexError
  end.

(** [[f(x) for x in xs]] where [f] may raise. *)
Fixpoint traverse {A B} (f : A -> result B) (xs : list A) : result (list B) :=
  match xs with
  | [] => Ok []
  | x :: rest =>
      match f x with
      | Ok y => match traverse f rest with
                | Ok ys => Ok (y :: ys)
                | Raise e => Raise e
                end
      | Raise e => Raise e
      end
  end.

(** ** Rational helpers *)

Definition Qltb (x y : Q) : bool :=
  match (x ?= y)%Q with
  | Lt => true
  | _ => false
  end.

(** [sum(xs)] and [max(xs)] over rationals; [max] of an empty sequence has
    no value. *)
Definition Qsum (xs : list Q) : Q := foldr Qplus 0%Q xs.

Definition Qmaximum (xs : list Q) : option Q :=
  match xs with
  | [] => None
  | x :: rest => Some (foldl Qmax x rest)
  end.

(** ** The priority index (sum tree) *)

Module SumTree.

(** Modelled from the spec: class [SumTree] of
    [pyagents/memory/sum_tree.py], which the buffer imports and whose
    source is not available.  The spec (section 4.1) describes a complete
    binary tree over [capacity] leaves, kept in one contiguous array with
    parent/child index formulas: node [i] has children [2i+1] and [2i+2],
    the leaf of slot [k] is node [capacity - 1 + k], every internal node
    holds the sum of its two children and the root the total mass.
    [written] records the leaves that have ever been assigned a priority
    ([len] counts them). *)
Record t : Type := mk {
  capacity : nat;
  nodes : list Q;
  written : gset nat
}.

(** Modelled from the spec: [SumTree(size)], an empty tree of [size]
    leaves, all priorities zero. *)
Definition create (size : nat) : t :=
  {| capacity := size;
     nodes := replicate (2 * size - 1) 0%Q;
     written := ∅ |}.

(** Modelled from the spec: the value held by node [i] of the array (0
    outside the array). *)
Definition node (tr : t) (i : nat) : Q := default 0%Q (nodes tr !! i).

(** Modelled from the spec: the array index of the leaf of [slot]. *)
Definition leaf_index (tr : t) (slot : nat) : nat := capacity tr - 1 + slot.

(** Modelled from the spec: the priorities of all leaves, in slot order. *)
Definition leaves (tr : t) : list Q := drop (capacity tr - 1) (nodes tr).

(** Modelled from the spec: [len()], the number of leaves that have ever
    been assigned a priority. *)
Definition len (tr : t) : nat := size (written tr).

(** Modelled from the spec: [total()], the root value. *)
Definition total (tr : t) : Q := node tr 0.

(** Modelled from the spec: [get(slot)], the current priority of that
    leaf. *)
Definition get (tr : t) (slot : nat) : Q := node tr (leaf_index tr slot).

(** Modelled from the spec: the priority given to a new item, the current
    maximum priority across all leaves, or 1 if the tree is empty. *)
Definition max_priority (tr : t) : Q :=
  if decide (len tr = 0) then 1%Q
  else default 1%Q (Qmaximum (leaves tr)).

(** Modelled from the spec: "propagates the delta up to the root": each
    ancestor of node [i] gains [delta].  The parent of [i] is
    [(i - 1) / 2], strictly smaller than [i], so [i] steps always reach
    the root. *)
Fixpoint propagate (fuel i : nat) (delta : Q) (ns : list Q) : list Q :=
  match fuel with
  | 0 => ns
  | S fuel' =>
      if decide (i = 0) then ns
      else
        let parent := (i - 1) / 2 in
        propagate fuel' parent delta (alter (fun v => (v + delta)%Q) parent ns)
  end.

(** Modelled from the spec: [set(slot, priority)]; [priority = None] is the
    omitted argument. *)
Definition set (tr : t) (slot : nat) (priority : option Q) : t :=
  let p := default (max_priority tr) priority in
  let i := leaf_index tr slot in
  let delta := (p - node tr i)%Q in
  {| capacity := capacity tr;
     nodes := propagate i i delta (<[i := p]> (nodes tr));
     written := {[slot]} ∪ written tr |}.

(** Modelled from the spec: the descent of [sample]: at an internal node
    go left if the target falls within the left child's mass, else
    subtract the left mass and go right; stop at a leaf.  A child index is
    larger than its parent's, so [length nodes] steps always reach a
    leaf. *)
Fixpoint descend (tr : t) (fuel i : nat) (target : Q) : nat :=
  match fuel with
  | 0 => i
  | S fuel' =>
      if decide (i < capacity tr - 1) then
        let left := 2 * i + 1 in
        if Qltb target (node tr left)
        then descend tr fuel' left target
        else descend tr fuel' (left + 1) (target - node tr left)%Q
      else i
  end.

(** Modelled from the spec: [sample(lb, ub)] draws a target uniformly in
    [[lb * total, ub * total)] and returns the leaf slot the descent
    reaches.  The uniform draw is the argument [u], a number of [[0, 1)]:
    the target is [(lb + u * (ub - lb)) * total]. *)
Definition sample (tr : t) (lb ub u : Q) : nat :=
  let target := ((lb + u * (ub - lb)) * total tr)%Q in
  descend tr (length (nodes tr)) 0 target - (capacity tr - 1).

End SumTree.

(** ** Real-valued helpers for the importance weights *)

Definition Rsum (xs : list R) : R := foldr Rplus 0%R xs.

(** [np.power(x, y)] for a base [x > 0]: [exp (y * ln x)].  For a base
    [x <= 0] numpy gives 0, an infinity, NaN (negative base, fractional
    exponent) or an integer power, none of which is what [Rpower] yields
    there ([ln] is 0 off the positive reals): [np_power] stands for
    [np.power] on positive bases only, and what is stated of the weights
    assumes every priority plus [eps] to be positive. *)
Definition np_power (x y : R) : R := Rpower x y.

(** [np.max(xs)]: no value (a [ValueError]) on an empty array. *)
Definition Rmaximum (xs : list R) : option R :=
  match xs with
  | [] => None
  | x :: rest => Some (foldl Rmax x rest)
  end.

(** ** The prioritized replay buffer *)

Module PrioritizedBuffer.

Definition observation : Type := list Q.
Definition act : Type := nat.

(** One column of a fragment: a batch of observations, actions, rewards
    or terminal flags (first dimension: the input batch, [n_envs]). *)
Inductive column : Type :=
| ObsCol (c : list observation)
| ActCol (c : list act)
| NumCol (c : list Q)
| BoolCol (c : list bool).

(** [states, actions, rewards, next_states, dones = fragment] *)
Definition fragment : Type :=
  (list observation * list act * list Q * list observation * list bool)%type.

(** A short-term entry is a Python dict from string keys to columns. *)
Definition st_experience : Type := gmap string column.

(** Line 67 stores the whole column [e_k['next_states']] (there is no
    [[b]]), line 77 one observation [next_states[b]]: the ['next_state']
    entry of a long-term experience is either. *)
Inductive next_state_val : Type :=
| OneState (s : observation)
| StateColumn (c : list observation).

(** A long-term entry: the dict
    [{'state', 'action', 'reward', 'next_state', 'done'}]. *)
Record lt_experience : Type := mk_experience {
  state : observation;
  action : act;
  reward : Q;
  next_state : next_state_val;
  done : bool
}.

(** [tuple(experience.values())], in insertion order. *)
Definition sample_tuple : Type :=
  (observation * act * Q * next_state_val * bool)%type.

Definition values (e : lt_experience) : sample_tuple :=
  (state e, action e, reward e, next_state e, done e).

Record t : Type := mk {
  _sum_tree : SumTree.t;
  _size : nat;
  _n : nat;
  _stmemory : list st_experience;        (* deque(maxlen=_n) *)
  _ltmemory : gmap nat lt_experience;
  _ptr : nat;
  _eps : Q;
  _alpha : Q;
  _beta : Q;
  _beta_max : Q;
  _beta_inc : Q
}.

Definition with_sum_tree (tr : SumTree.t) (s : t) : t :=
  mk tr (_size s) (_n s) (_stmemory s) (_ltmemory s) (_ptr s)
     (_eps s) (_alpha s) (_beta s) (_beta_max s) (_beta_inc s).
Definition with_stmemory (d : list st_experience) (s : t) : t :=
  mk (_sum_tree s) (_size s) (_n s) d (_ltmemory s) (_ptr s)
     (_eps s) (_alpha s) (_beta s) (_beta_max s) (_beta_inc s).
Definition with_ltmemory (m : gmap nat lt_experience) (s : t) : t :=
  mk (_sum_tree s) (_size s) (_n s) (_stmemory s) m (_ptr s)
     (_eps s) (_alpha s) (_beta s) (_beta_max s) (_beta_inc s).
Definition with_ptr (p : nat) (s : t) : t :=
  mk (_sum_tree s) (_size s) (_n s) (_stmemory s) (_ltmemory s) p
     (_eps s) (_alpha s) (_beta s) (_beta_max s) (_beta_inc s).
Definition with_beta (b : Q) (s : t) : t :=
  mk (_sum_tree s) (_size s) (_n s) (_stmemory s) (_ltmemory s) (_ptr s)
     (_eps s) (_alpha s) b (_beta_max s) (_beta_inc s).

(** The [beta] argument of the constructor: an [int], a tuple
    [(beta, beta_max, steps)], or anything else (a float, say). *)
Inductive beta_arg : Type :=
| BetaInt (b : Z)
| BetaTuple (b b_max : Q) (steps : Z)
| BetaOther.

(** [__init__(save_dir, size, n_step_return, eps, alpha, beta)]; the
    defaults are [size=100000], [n_step_return=1], [eps=0.02],
    [alpha=0.6], [beta=(0.0, 1.0, 10 ** 6)].  [deque(maxlen=-1)] raises
    [ValueError]; a [beta] that is neither an [int] nor a tuple leaves
    [self._beta] unset, and building [_config] raises
    [AttributeError]. *)
Definition init (size n_step_return : nat) (eps alpha : Q) (beta : beta_arg)
  : result t :=
  let sum_tree := SumTree.create size in
  if decide (n_step_return = 0) then Raise ValueError
  else
    let build b b_max inc :=
      mk sum_tree size (n_step_return - 1) [] ∅ 0 eps alpha b b_max inc in
    match beta with
    | BetaInt b => Ok (build (inject_Z b) (inject_Z b) 0%Q)
    | BetaTuple b b_max steps =>
        if decide (steps = 0%Z) then Raise ZeroDivisionError
        else Ok (build b b_max ((b_max - b) / inject_Z steps)%Q)
    | BetaOther => Raise AttributeError
    end.

(** [__len__] *)
Definition len (s : t) : nat := SumTree.len (_sum_tree s).

(** property [n_step_return] *)
Definition n_step_return (s : t) : nat := _n s + 1.

(** [d[key]] on a short-term entry. *)
Definition dict_get (d : st_experience) (key : string) : result column :=
  match d !! key with
  | Some c => Ok c
  | None => Raise (KeyError key)
  end.

Definition as_obs (c : column) : result (list observation) :=
  match c with ObsCol xs => Ok xs | _ => Raise TypeError end.
Definition as_act (c : column) : result (list act) :=
  match c with ActCol xs => Ok xs | _ => Raise TypeError end.
Definition as_num (c : column) : result (list Q) :=
  match c with NumCol xs => Ok xs | _ => Raise TypeError end.
Definition as_bool (c : column) : result (list bool) :=
  match c with BoolCol xs => Ok xs | _ => Raise TypeError end.

(** [deque.append] on a deque of bound [maxlen]: when full, the oldest
    entry is dropped from the left; with [maxlen = 0] nothing is kept. *)
Definition deque_append {A} (maxlen : nat) (d : list A) (x : A) : list A :=
  let d' := d ++ [x] in
  drop (length d' - maxlen) d'.

(** [commit_ltmemory(experience)], lines 81-84.  [% self._size] raises
    [ZeroDivisionError] for a buffer of size 0, after the two writes. *)
Definition commit_ltmemory (experience : lt_experience) : M t unit :=
  fun s =>
    let s1 := with_ltmemory (<[_ptr s := experience]> (_ltmemory s)) s in
    let s2 := with_sum_tree (SumTree.set (_sum_tree s1) (_ptr s1) None) s1 in
    if decide (_size s2 = 0) then Throw ZeroDivisionError s2
    else Return tt (with_ptr ((_ptr s2 + 1) mod _size s2) s2).

(** [e[key][b]] for each of the four kinds of column. *)
Definition obs_at (e : st_experience) (key : string) (b : nat)
  : result observation :=
  c ← dict_get e key; xs ← as_obs c; getitem xs b.
Definition act_at (e : st_experience) (key : string) (b : nat)
  : result act :=
  c ← dict_get e key; xs ← as_act c; getitem xs b.
Definition num_at (e : st_experience) (key : string) (b : nat)
  : result Q :=
  c ← dict_get e key; xs ← as_num c; getitem xs b.
Definition bool_at (e : st_experience) (key : string) (b : nat)
  : result bool :=
  c ← dict_get e key; xs ← as_bool c; getitem xs b.

(** Lines 62-66: the loop
    [for k, e_k in enumerate(self._stmemory)] accumulating
    [r_tpn += (gamma ** k) * e_k['rewards'][b]] and leaving at the first
    [e_k['dones'][b]].  It returns [r_tpn] and the last [e_k] visited;
    [e_prev] is the entry visited before [es]. *)
Fixpoint nstep_loop (gamma : Q) (b k : nat) (r_tpn : Q)
    (es : list st_experience) (e_prev : st_experience)
  : result (Q * st_experience) :=
  match es with
  | [] => Ok (r_tpn, e_prev)
  | e_k :: rest =>
      r ← num_at e_k "rewards" b;
      let r_tpn := (r_tpn + gamma ^ Z.of_nat k * r)%Q in
      d ← bool_at e_k "dones" b;
      if (d : bool) then Ok (r_tpn, e_k)
      else nstep_loop gamma b (S k) r_tpn rest e_k
  end.

(** Lines 60-69: the aggregated experience of batch item [b]. *)
Definition aggregate (stmemory : list st_experience) (gamma : Q) (b : nat)
  : result lt_experience :=
  e0 ← getitem stmemory 0;
  s_t ← obs_at e0 "states" b;
  a_t ← act_at e0 "actions" b;
  '(r_tpn, e_k) ← nstep_loop gamma b 0 0%Q stmemory e0;
  s_tpn ← (c ← dict_get e_k "next_states"; as_obs c);
  done_tpn ← bool_at e_k "dones" b;
  Ok (mk_experience s_t a_t r_tpn (StateColumn s_tpn) done_tpn).

(** Modelled from the spec: the attribute [self.stmemory] of lines 71 and
    87 comes from the base class [Buffer] of [pyagents/memory/buffer.py],
    whose source is not available; it is taken to be the ShortTermQueue
    of the spec, the bounded deque [self._stmemory] ("oldest dropped as
    newest arrives"). *)
Definition stmemory_append (e : st_experience) : M t unit :=
  modify (fun s => with_stmemory (deque_append (_n s) (_stmemory s) e) s).

(** [commit_stmemory(fragment, gamma)], lines 48-79. *)
Definition commit_stmemory (frag : fragment) (gamma : Q) : M t unit :=
  let '(states, actions, rewards, next_states, dones) := frag in
  let batch_size := length states in
  let st_exp : st_experience :=
    <["state" := ObsCol states]> (
    <["actions" := ActCol actions]> (
    <["reward" := NumCol rewards]> (
    <["next_state" := ObsCol next_states]> (
    <["dones" := BoolCol dones]> ∅)))) in
  fun s =>
    if bool_decide (1 < _n s) && bool_decide (_n s = length (_stmemory s))
    then
      (for_each (range batch_size) (fun b =>
         stmemory ← gets _stmemory;
         lt_exp ← lift (aggregate stmemory gamma b);
         commit_ltmemory lt_exp);;
       stmemory_append st_exp) s
    else
      for_each (range batch_size) (fun b =>
        lt_exp ← lift (
          s_b ← getitem states b;
          a_b ← getitem actions b;
          r_b ← getitem rewards b;
          s'_b ← getitem next_states b;
          d_b ← getitem dones b;
          Ok (mk_experience s_b a_b r_b (OneState s'_b) d_b));
        commit_ltmemory lt_exp) s.

(** [clear_stmemory()] *)
Definition clear_stmemory : M t unit :=
  modify (with_stmemory []).

(** [np.linspace(0., 1., num)]: [num] evenly spaced points from 0 to 1. *)
Definition linspace01 (num : nat) : list Q :=
  map (fun i => (inject_Z (Z.of_nat i) / inject_Z (Z.of_nat (num - 1)))%Q)
      (range num).

(** Lines 95-98: the importance weights of the batch, for [beta != 0].
    [n] is [len(self._sum_tree)]; [priorities] already carry the added
    [eps].  The two [np.power] calls are [np_power], hence right when the
    priorities are positive and [n > 0]. *)
Definition is_weights (n : nat) (alpha beta : Q) (priorities : list Q)
  : result (list R) :=
  let priorities_pow := map (fun p => np_power (Q2R p) (Q2R alpha)) priorities in
  let total := Rsum priorities_pow in
  let probs := map (fun x => (x / total)%R) priorities_pow in
  let w := map (fun p => np_power (1 / (INR n * p)) (Q2R beta)) probs in
  match Rmaximum w with
  | Some m => Ok (map (fun x => (x / m)%R) w)
  | None => Raise ValueError
  end.

(** [sample(batch_size, vectorizing_fn)], lines 89-102.  [draw i] is the
    uniform draw of the [i]-th call of [SumTree.sample]. *)
Definition sample {A} (batch_size : nat)
    (vectorizing_fn : list sample_tuple -> A) (draw : nat -> Q)
  : M t (A * list nat * list R) :=
  fun s =>
    let bounds := linspace01 (batch_size + 1) in
    let indexes :=
      map (fun i => SumTree.sample (_sum_tree s)
                      (nth i bounds 0%Q) (nth (i + 1) bounds 0%Q) (draw i))
          (range batch_size) in
    let priorities :=
      map (fun idx => (SumTree.get (_sum_tree s) idx + _eps s)%Q) indexes in
    let samples :=
      traverse (fun idx => match _ltmemory s !! idx with
                           | Some e => Ok (values e)
                           | None => Raise (SlotKeyError idx)
                           end) indexes in
    (samples ← lift samples;
     weights ← lift (
       if negb (Qeq_bool (_beta s) 0)
       then is_weights (SumTree.len (_sum_tree s)) (_alpha s) (_beta s)
                       priorities
       else Ok (map (fun _ => 1%R) indexes));
     modify (fun s => with_beta (Qmin (_beta s + _beta_inc s) (_beta_max s)) s);;
     mret (vectorizing_fn samples, indexes, weights)) s.

(** A tensor: its shape and its entries in row-major order. *)
Record ndarray : Type := mk_ndarray {
  shape : list nat;
  data : list Q
}.

(** [enumerate(xs)] *)
Definition enumerate {A} (xs : list A) : list (nat * A) :=
  zip (range (length xs)) xs.

(** The loop of lines 106-107. *)
Definition update_loop (errors : ndarray) (indexes : list nat) : M t unit :=
  for_each (enumerate indexes) (fun '(error_idx, mem_idx) =>
    e ← lift (getitem (data errors) error_idx);
    modify (fun s =>
      with_sum_tree (SumTree.set (_sum_tree s) mem_idx (Some e)) s)).

(** [update_samples(errors, indexes)], lines 104-107. *)
Definition update_samples (errors : ndarray) (indexes : list nat) : M t unit :=
  if bool_decide (length (shape errors) = 1)
     && bool_decide (nth 0 (shape errors) 0 = length indexes)
  then update_loop errors indexes
  else throw AssertionError.



End PrioritizedBuffer.

(** ** The greedy Q-policy *)

Module QPolicy.

(** An entry of the Q-value row after [tf.where(mask, qvals, np.NINF)]:
    the network's (finite) output or negative infinity. *)
Inductive qval : Type :=
| NInf
| Fin (q : Q).

(** [x < y] on such entries. *)
Definition qval_ltb (x y : qval) : bool :=
  match x, y with
  | _, NInf => false
  | NInf, Fin _ => true
  | Fin a, Fin b => Qltb a b
  end.

(** [np.argmax] scans left to right and keeps the first maximum:
    [best] at index [best_i] is replaced only by a strictly larger
    entry. *)
Fixpoint argmax_from (best_i : nat) (best : qval) (i : nat) (xs : list qval)
  : nat :=
  match xs with
  | [] => best_i
  | x :: rest =>
      if qval_ltb best x then argmax_from i x (S i) rest
      else argmax_from best_i best (S i) rest
  end.

(** [np.argmax(xs)]; an empty array raises [ValueError]. *)
Definition argmax (xs : list qval) : result nat :=
  match xs with
  | [] => Raise ValueError
  | x :: rest => Ok (argmax_from 0 x 1 rest)
  end.

(** [tf.where(mask, qvals, np.NINF)] on a row of Q-values: a mask of the
    row's length selects entry by entry, a mask of length 1 is broadcast,
    any other length is a shape error. *)
Definition where_mask (mask : list bool) (qvals : list Q) : result (list qval) :=
  let pick (m : bool) (q : Q) := if m then Fin q else NInf in
  if decide (length mask = length qvals) then Ok (zip_with pick mask qvals)
  else match mask with
       | [m] => Ok (map (pick m) qvals)
       | _ => Raise ValueError
       end.

(** [_act(obs, mask, training)], lines 12-17.  [q_network] maps the
    observation (reshaped to a batch of one) to the row of Q-values;
    [np.argmax(qvals, keepdims=True)[0]] is a one-element array holding
    the index. *)
Definition _act (q_network : list Q -> list Q) (obs : list Q)
    (mask : option (list bool)) : result (list nat) :=
  let qvals := q_network obs in
  row ← match mask with
        | Some m => where_mask m qvals
        | None => Ok (map Fin qvals)
        end;
  i ← argmax row;
  Ok [i].

(** [_distribution(obs)], lines 19-21: [qvals / tf.reduce_sum(qvals)].
    Dividing by a zero sum gives an infinity or NaN, which has no rational
    value: such an entry is [None]. *)
Definition _distribution (q_network : list Q -> list Q) (obs : list Q)
  : list (option Q) :=
  let qvals := q_network obs in
  let total := Qsum qvals in
  map (fun q => if Qeq_bool total 0 then None else Some (q / total)%Q) qvals.

End QPolicy.

(** ** Floating-point loss values *)

(** The scalar a loss computation yields in floating point: a finite
    number, an infinity or NaN. *)
Inductive fval : Type :=
| Finite (q : Q)
| PosInf
| NegInf
| NaN.

(** [tf.math.is_inf], [tf.math.is_nan] *)
Definition is_inf (x : fval) : bool :=
  match x with PosInf | NegInf => true | _ => false end.
Definition is_nan (x : fval) : bool :=
  match x with NaN => true | _ => false end.
Definition non_finite (x : fval) : bool := is_inf x || is_nan x.

(** ** The DQN agent *)

Module DQNAgent.

Definition observation : Type := list Q.

(** [tf.math.reduce_max(row)]; the maximum of an empty row is minus
    infinity, which has no rational value: the row is taken non-empty and
    0 stands for the missing case. *)
Definition reduce_max (row : list Q) : Q := default 0%Q (Qmaximum row).

(** [tf.reduce_mean] of a vector. *)
Definition reduce_mean (xs : list Q) : Q :=
  (Qsum xs / inject_Z (Z.of_nat (length xs)))%Q.

(** [memories]: the five batches built by [_vectorize_samples]. *)
Definition memories : Type :=
  (list observation * list nat * list Q * list observation * list bool)%type.

(** Lines 78-79: [adjusted_rewards] and [target_values] (before the
    [tf.stack]). *)
Definition target_values (gamma : Q) (reward_batch : list Q)
    (done_batch : list bool) (next_target_q_values : list (list Q)) : list Q :=
  let adjusted_rewards :=
    zip_with (fun r row => (r + gamma * reduce_max row)%Q)
             reward_batch next_target_q_values in
  zip_with (fun (d : bool) '(r, adj) => if d then r else adj)
           done_batch (zip reward_batch adjusted_rewards).

(** Lines 80-82: the row of [target_q_values] for one sample: the target
    at the action taken, the current estimate elsewhere. *)
Definition target_q_row (action_shape a : nat) (target : Q) (current : list Q)
  : list Q :=
  let stacked := replicate action_shape target in
  let update_idx := map (fun i => bool_decide (i = a)) (range action_shape) in
  zip_with (fun (u : bool) '(t, c) => if u then t else c)
           update_idx (zip stacked current).

(** [keras.losses.mean_squared_error(y_true, y_pred)] along the last
    axis. *)
Definition mean_squared_error (y_true y_pred : list Q) : Q :=
  reduce_mean (zip_with (fun t p => ((p - t) * (p - t))%Q) y_true y_pred).

(** [_loss(memories)], lines 70-83.  The two networks are the functions
    from an observation to its row of Q-values. *)
Definition _loss (online_q target_q : observation -> list Q)
    (gamma : Q) (action_shape : nat) (mem : memories) : Q :=
  let '(state_batch, action_batch, reward_batch, new_state_batch, done_batch) :=
    mem in
  let current_q_values := map online_q state_batch in
  let next_target_q_values := map target_q new_state_batch in
  let next_online_q_values := map online_q new_state_batch in
  let targets :=
    target_values gamma reward_batch done_batch next_target_q_values in
  let target_q_values :=
    zip_with (fun a '(t, c) => target_q_row action_shape a t c)
             action_batch (zip targets current_q_values) in
  let td_loss :=
    zip_with mean_squared_error current_q_values target_q_values in
  reduce_mean td_loss.

(** The targets [_loss] builds, as a function of the two networks. *)
Definition loss_targets (online_q target_q : observation -> list Q)
    (gamma : Q) (mem : memories) : list Q :=
  let '(state_batch, action_batch, reward_batch, new_state_batch, done_batch) :=
    mem in
  let next_target_q_values := map target_q new_state_batch in
  let next_online_q_values := map online_q new_state_batch in
  target_values gamma reward_batch done_batch next_target_q_values.

(** [_update_target()], lines 102-106: [source] and [target] are the
    variables of the online and of the target network, in order; [zip]
    stops at the shorter list and the remaining target variables keep
    their value. *)
Definition _update_target (tau : Q) (source target : list Q) : list Q :=
  zip_with (fun sv tv => ((1 - tau) * tv + tau * sv)%Q) source target
  ++ drop (length source) target.

(** A signed 32-bit integer after an arithmetic operation: the value is
    taken modulo [2^32] into [-2^31 .. 2^31 - 1]. *)
Definition wrap_int32 (z : Z) : Z := ((z + 2 ^ 31) mod 2 ^ 32 - 2 ^ 31)%Z.

(** The part of the agent [_train] touches.  [_train_step] is the
    [tf.Variable(0, ...)] of line 38, an int32 counter;
    [_target_update_period] is a Python integer, not negative, which
    [tf.math.mod] turns into an int32 tensor (it is taken to fit one). *)
Record t : Type := mk {
  online_variables : list Q;
  target_variables : list Q;
  _tau : Q;
  _target_update_period : nat;
  _train_step : Z;
  epsilon : Q
}.

Section Train.
(** What [_train] calls outside this class: the replay memory
    ([commit_ltmemory()] followed by [sample(batch_size, ...)], one
    fallible step here), the floating-point value of [_loss] on the
    sampled memories under the current variables, the optimizer's
    [apply_gradients] (gradient of the loss included) and the policy's
    [update_eps]. *)
Variable memory_sample : nat -> result memories.
Variable float_loss : list Q -> list Q -> memories -> fval.
Variable apply_gradients : list Q -> list Q -> memories -> list Q.
Variable update_eps : Q -> Q.

(** [_train(batch_size)], lines 85-100.  [assign_add(1)] on the int32
    counter wraps around past [2^31 - 1]; [tf.math.mod] is the floored
    remainder, as [Z.modulo] is. *)
Definition _train (batch_size : nat) : M t fval :=
  fun s =>
    match memory_sample batch_size with
    | Raise e => Throw e s
    | Ok mem =>
        let loss := float_loss (online_variables s) (target_variables s) mem in
        let online' :=
          apply_gradients (online_variables s) (target_variables s) mem in
        let step' := wrap_int32 (_train_step s + 1) in
        if decide (_target_update_period s = 0)
        then Throw ZeroDivisionError
               (mk online' (target_variables s) (_tau s)
                   (_target_update_period s) step' (epsilon s))
        else
          let target' :=
            if decide ((step' mod Z.of_nat (_target_update_period s))%Z = 0%Z)
            then _update_target (_tau s) online' (target_variables s)
            else target_variables s in
          Return loss
            (mk online' target' (_tau s) (_target_update_period s) step'
                (update_eps (epsilon s)))
    end.
End Train.

(** [x.reshape(state_shape)] on a flat observation, [state_shape] being the
    number of entries asked for: [ValueError] when the sizes differ. *)
Definition reshape (state_shape : nat) (x : observation) : result observation :=
  if decide (length x = state_shape) then Ok x else Raise ValueError.

(** One sample of a mini-batch:
    [(state, action, reward, next_state, done)]. *)
Definition transition : Type :=
  (observation * nat * Q * observation * bool)%type.

(** [_vectorize_samples(mini_batch)], lines 108-116. *)
Definition _vectorize_samples (state_shape : nat) (mini_batch : list transition)
  : result memories :=
  state_batch ← traverse (fun sample : transition =>
                            reshape state_shape sample.1.1.1.1) mini_batch;
  let action_batch := map (fun sample : transition => sample.1.1.1.2) mini_batch in
  let reward_batch := map (fun sample : transition => sample.1.1.2) mini_batch in
  new_state_batch ← traverse (fun sample : transition =>
                                reshape state_shape sample.1.2) mini_batch;
  let done_batch := map (fun sample : transition => sample.2) mini_batch in
  Ok (state_batch, action_batch, reward_batch, new_state_batch, done_batch).

End DQNAgent.

(** ** The policy-gradient agent *)

Module VPG.

(** The part of the agent [_train] touches. *)
Record t : Type := mk {
  actor_variables : list Q;
  critic_variables : list Q;
  trajectory_length : nat;
  _train_step : nat
}.

Section Train.
(** The floating-point value of [policy_loss + critic_loss -
    entropy_loss] on the stored trajectory, and the two optimizer
    steps. *)
Variable float_loss : t -> fval.
Variable actor_step critic_step : t -> list Q.

(** [_train()], lines 135-187, from the loss on: the assertion of line
    157, the backward pass, [clear_memory()] and the step counter. *)
Definition _train : M t fval :=
  fun s =>
    let loss := float_loss s in
    if negb (is_inf loss) && negb (is_nan loss) then
      Return loss (mk (actor_step s) (critic_step s) 0 (_train_step s + 1))
    else Throw AssertionError s.
End Train.

(** A reward as [remember] appends it to the trajectory: a Python (or
    numpy) integer or float. *)
Inductive pynum : Type :=
| PyInt (z : Z)
| PyFloat (x : Q).

Definition is_int (r : pynum) : bool :=
  match r with PyInt _ => true | PyFloat _ => false end.

Definition num_val (r : pynum) : Q :=
  match r with PyInt z => inject_Z z | PyFloat x => x end.

(** The element type numpy gives an array made from a list of numbers:
    floats unless every entry is an integer (taken to fit 64 bits); the
    empty list gives floats. *)
Inductive dtype : Type := int64 | float64.

Definition array_dtype (xs : list pynum) : dtype :=
  match xs with
  | [] => float64
  | _ => if forallb is_int xs then int64 else float64
  end.

(** [a[k] = x] converts [x] to the element type of [a]: an integer array
    keeps the integer part of a float, rounding toward zero. *)
Definition astype (dt : dtype) (x : Q) : Q :=
  match dt with
  | int64 => inject_Z (Z.quot (Qnum x) (Zpos (Qden x)))
  | float64 => x
  end.

(** Line 144, one turn of the loop over [enumerate(rewards[-2::-1])]:
    [returns[n - i - 2] = r + gamma * returns[n - i - 1]], [n] being
    [len(rewards)] and [dt] the element type of [returns]; [gamma] is a
    float, so the right-hand side is one. *)
Definition returns_step (dt : dtype) (gamma : Q) (n : nat) (returns : list Q)
    (ir : nat * pynum) : list Q :=
  let '(i, r) := ir in
  let next := default 0%Q (returns !! (n - i - 1)) in
  <[n - i - 2 := astype dt (num_val r + gamma * next)%Q]> returns.

(** Lines 141-144 of [_train]: the discounted returns of the stored
    rewards.  [np.empty_like(rewards)] has the element type of the array
    the list of rewards makes and arbitrary contents, here [uninit k] at
    index [k]; [rewards[-1]] raises [IndexError] on an empty trajectory;
    [rewards[-2::-1]] is all but the last reward, backwards. *)
Definition discounted_returns (gamma : Q) (rewards : list pynum)
    (uninit : nat -> Q) : result (list Q) :=
  let n := length rewards in
  let dt := array_dtype rewards in
  let returns := map uninit (range n) in
  match last rewards with
  | None => Raise IndexError
  | Some r_last =>
      let returns := <[n - 1 := astype dt (num_val r_last)]> returns in
      Ok (foldl (returns_step dt gamma n) returns
                (PrioritizedBuffer.enumerate (reverse (take (n - 1) rewards))))
  end.

End VPG.

(** * Vocabulary of the statements *)

(** ** Well-formed trees *)

Section SumTreeTerms.
Import SumTree.

Definition wf (tr : t) : Prop := length (nodes tr) = 2 * capacity tr - 1.

End SumTreeTerms.

(** ** Ring buffer *)

Section RingBufferTerms.
Import PrioritizedBuffer.

(** The sum tree of a buffer has the buffer's size and the array of a
    tree of that capacity. *)
Definition buf_wf (s : t) : Prop :=
  wf (_sum_tree s) /\ SumTree.capacity (_sum_tree s) = _size s.

(** Every key of the long-term dict is a slot [0 .. size-1]. *)
Definition keys_in_range (s : t) : Prop :=
  forall k, is_Some (_ltmemory s !! k) -> k < _size s.

(** [for e in es: self.commit_ltmemory(e)] *)
Definition commit_all (es : list lt_experience) : M t unit :=
  for_each es commit_ltmemory.

(** A small buffer of four slots, as [PrioritizedBuffer(size=4,
    beta=(0.0, 1.0, 10))] builds it. *)
Definition buffer4 : t :=
  mk (SumTree.create 4) 4 0 [] ∅ 0 (1 # 50) (3 # 5) 0 1 (1 # 10).

Definition experience0 (r : Q) : lt_experience :=
  mk_experience [0%Q] 0 r (OneState [1%Q]) false.

End RingBufferTerms.

(** ** n-step aggregation *)

Section NStepTerms.
Import PrioritizedBuffer.

(** The entry line 57 would queue for a one-item fragment. *)
Definition queued_entry (r : Q) (d : bool) : st_experience :=
  <["state" := ObsCol [[0%Q]]]> (
  <["actions" := ActCol [0]]> (
  <["reward" := NumCol [r]]> (
  <["next_state" := ObsCol [[0%Q]]]> (
  <["dones" := BoolCol [d]]> ∅)))).

Definition unit_fragment (r : Q) : fragment :=
  ([[0%Q]], [0], [r], [[0%Q]], [false]).

Definition four_commits : M t unit :=
  commit_stmemory (unit_fragment 1) (1 # 2);;
  commit_stmemory (unit_fragment 1) (1 # 2);;
  commit_stmemory (unit_fragment 1) (1 # 2);;
  commit_stmemory (unit_fragment 1) (1 # 2).

End NStepTerms.

(** ** Runs of the buffer and the schedule of [beta] *)

Section BetaAnnealTerms.
Import PrioritizedBuffer.

(** The public operations of the buffer, and a run of them. *)
Inductive op : Type :=
| Commit (frag : fragment) (gamma : Q)
| Sample (batch_size : nat) (draw : nat -> Q)
| Update (errors : ndarray) (indexes : list nat)
| Clear.

Definition run_op (o : op) (s : t) : t :=
  match o with
  | Commit frag gamma => final_state (commit_stmemory frag gamma s)
  | Sample batch_size draw =>
      final_state (sample batch_size (fun x => x) draw s)
  | Update errors indexes => final_state (update_samples errors indexes s)
  | Clear => final_state (clear_stmemory s)
  end.

Definition run (ops : list op) (s : t) : t :=
  foldl (fun s o => run_op o s) s ops.

(** The schedule a [beta] argument asks for. *)
Definition beta_start (arg : beta_arg) : Q :=
  match arg with
  | BetaInt b => inject_Z b
  | BetaTuple b _ _ => b
  | BetaOther => 0
  end.

Definition beta_end (arg : beta_arg) : Q :=
  match arg with
  | BetaInt b => inject_Z b
  | BetaTuple _ b_max _ => b_max
  | BetaOther => 0
  end.

Definition beta_step (arg : beta_arg) : Q :=
  match arg with
  | BetaTuple b b_max steps => (b_max - b) / inject_Z steps
  | _ => 0
  end.

(** An increasing schedule over a positive number of steps. *)
Definition increasing_schedule (arg : beta_arg) : Prop :=
  match arg with
  | BetaInt _ => True
  | BetaTuple b b_max steps => (b <= b_max)%Q /\ (0 < steps)%Z
  | BetaOther => False
  end.

Definition beta_fields (s : t) : Q * Q * Q :=
  (_beta s, _beta_max s, _beta_inc s).

Definition beta_inv (arg : beta_arg) (s : t) : Prop :=
  _beta_max s = beta_end arg /\ _beta_inc s = beta_step arg
  /\ (beta_start arg <= _beta s)%Q /\ (_beta s <= beta_end arg)%Q.

End BetaAnnealTerms.

(** ** Stratified sampling *)

Section StratifiedTerms.
Import PrioritizedBuffer.

Definition Qnat (n : nat) : Q := inject_Z (Z.of_nat n).

(** The indexes of a returned batch. *)
Definition returned_indexes {A} (o : outcome t (A * list nat * list R))
  : option (list nat) :=
  match o with
  | Return (_, idx, _) _ => Some idx
  | Throw _ _ => None
  end.

(** [buffer4] after one transition has been committed: slot 0 carries
    all the priority mass. *)
Definition buffer4_one : t :=
  final_state (commit_ltmemory (experience0 1) buffer4).

End StratifiedTerms.

(** ** Importance weights as specified *)

Section ImportanceWeightsTerms.
Import PrioritizedBuffer.
Local Open Scope R_scope.

(** The weights as the specification words them: [(p_j + eps)^alpha] for
    a slot, its sum over all stored slots, the probability [P_i], the
    weight [(N * P_i)^(-beta)] and the division by the batch maximum. *)
Definition priority_pow (s : t) (slot : nat) : R :=
  Rpower (Q2R (SumTree.get (_sum_tree s) slot + _eps s)) (Q2R (_alpha s)).

Definition stored_slots (s : t) : list nat := elements (dom (_ltmemory s)).

Definition stored_mass (s : t) : R := Rsum (map (priority_pow s) (stored_slots s)).

Definition spec_probability (s : t) (slot : nat) : R :=
  priority_pow s slot / stored_mass s.

Definition spec_weight (s : t) (slot : nat) : R :=
  Rpower (INR (len s) * spec_probability s slot) (- Q2R (_beta s)).

(** Every stored slot has a positive priority once [eps] is added: the
    bases of the powers are positive. *)
Definition positive_priorities (s : t) : Prop :=
  Forall (fun slot => (0 < SumTree.get (_sum_tree s) slot + _eps s)%Q)
         (stored_slots s).

Definition spec_weights (s : t) (indexes : list nat) : option (list R) :=
  let ws := map (spec_weight s) indexes in
  match Rmaximum ws with
  | Some m => Some (map (fun x => x / m) ws)
  | None => None
  end.

(** [buffer4_one] part-way through the annealing. *)
Definition buffer4_half : t := with_beta (1 # 2) buffer4_one.

End ImportanceWeightsTerms.

(** ** Agents for the loss guard *)

Section NonFiniteLossTerms.

Definition dqn_agent0 : DQNAgent.t :=
  DQNAgent.mk [1%Q] [1%Q] 1 500 0 (1 # 10).

Definition dqn_batch0 : DQNAgent.memories :=
  ([[0%Q]], [0], [1%Q], [[0%Q]], [false]).

Definition vpg_agent0 : VPG.t := VPG.mk [1%Q] [1%Q] 3 0.

End NonFiniteLossTerms.

(** ** Order on masked Q-values *)

Section MaskedArgmaxTerms.
Import QPolicy.

Definition qval_le (x y : qval) : Prop :=
  match x, y with
  | NInf, _ => True
  | Fin _, NInf => False
  | Fin a, Fin b => (a <= b)%Q
  end.

End MaskedArgmaxTerms.

(** ** Further vocabulary *)

Section BufferTerms.
Import PrioritizedBuffer.

(** Lines 74-78: the experience built for batch item [b] when a fragment is
    committed directly. *)
Definition direct_row (frag : fragment) (b : nat) : result lt_experience :=
  let '(states, actions, rewards, next_states, dones) := frag in
  s_b ← getitem states b;
  a_b ← getitem actions b;
  r_b ← getitem rewards b;
  s'_b ← getitem next_states b;
  d_b ← getitem dones b;
  Ok (mk_experience s_b a_b r_b (OneState s'_b) d_b).

(** All five columns of a fragment hold [n] items. *)
Definition fragment_length (frag : fragment) (n : nat) : Prop :=
  let '(states, actions, rewards, next_states, dones) := frag in
  length states = n /\ length actions = n /\ length rewards = n
  /\ length next_states = n /\ length dones = n.

(** The aggregation branch of [commit_stmemory] is not taken. *)
Definition commits_directly (s : t) : Prop :=
  ~ (1 < _n s /\ _n s = length (_stmemory s)).

(** The slots holding a transition are those the tree has been told of. *)
Definition stored_is_written (s : t) : Prop :=
  dom (_ltmemory s) = SumTree.written (_sum_tree s).

(** The shape every buffer is found in: a tree of the buffer's capacity,
    the cursor and all keys within [0 .. size-1], and nothing queued. *)
Definition buffer_inv (s : t) : Prop :=
  buf_wf s /\ _ptr s < _size s /\ keys_in_range s /\ _stmemory s = [].

End BufferTerms.

Section AgentTerms.

(** [k] synchronisations in a row, the online variables being held
    fixed. *)
Definition sync_n (k : nat) (tau : Q) (source target : list Q) : list Q :=
  Nat.iter k (DQNAgent._update_target tau source) target.

(** The discounted sum [r_0 + gamma * r_1 + gamma^2 * r_2 + ...] of a list
    of rewards. *)
Definition discounted_sum (gamma : Q) (rewards : list Q) : Q :=
  foldr (fun r acc => (r + gamma * acc)%Q) 0%Q rewards.

(** Putting the five batches of [_vectorize_samples] back together. *)
Definition zip5 (mem : DQNAgent.memories) : list DQNAgent.transition :=
  let '(states, actions, rewards, new_states, dones) := mem in
  zip (zip (zip (zip states actions) rewards) new_states) dones.

End AgentTerms.

(** * Properties *)

(** ** Sum tree: reading a leaf after a write *)

Section SumTreeFacts.
Import SumTree.

Lemma Qltb_lt (x y : Q) : Qltb x y = true <-> (x < y)%Q.
Proof.
  unfold Qltb. rewrite Qlt_alt. destruct (x ?= y)%Q; split; congruence.
Qed.

Lemma propagate_length fuel i delta ns :
  length (propagate fuel i delta ns) = length ns.
Proof.
  revert i ns. induction fuel as [|fuel IH]; intros i ns;
    cbn [propagate]; [done|].
  destruct (decide (i = 0)); [done|].
  rewrite IH. apply length_alter.
Qed.

(** Only proper ancestors are touched: every index above the parent of
    [i] keeps its value. *)
Lemma propagate_lookup_above fuel i delta ns j :
  (i - 1) / 2 < j ->
  propagate fuel i delta ns !! j = ns !! j.
Proof.
  revert i ns. induction fuel as [|fuel IH]; intros i ns Hj;
    cbn [propagate]; [done|].
  destruct (decide (i = 0)); [done|].
  rewrite IH.
  - apply list_lookup_alter_ne. lia.
  - pose proof (Nat.Div0.div_le_mono ((i - 1) / 2 - 1) ((i - 1) / 2 * 2) 2).
    rewrite Nat.div_mul in H by done. lia.
Qed.

Lemma parent_below_leaves cap slot :
  slot < cap -> 2 <= cap -> (cap - 1 + slot - 1) / 2 < cap - 1.
Proof.
  intros Hs Hc.
  apply Nat.Div0.div_lt_upper_bound. lia.
Qed.

Lemma wf_create size : wf (create size).
Proof. unfold wf, create; simpl. by rewrite length_replicate. Qed.

Lemma wf_set tr slot p : wf tr -> wf (set tr slot p).
Proof.
  unfold wf, set; simpl. intros H.
  by rewrite propagate_length, length_insert.
Qed.

Lemma capacity_set tr slot p : capacity (set tr slot p) = capacity tr.
Proof. done. Qed.

Lemma get_set_eq tr slot p :
  wf tr -> slot < capacity tr ->
  get (set tr slot p) slot = default (max_priority tr) p.
Proof.
  intros Hwf Hs. unfold get, node, set, leaf_index; simpl.
  destruct (decide (capacity tr = 1)) as [H1|H1].
  - assert (slot = 0) as -> by lia. rewrite H1. simpl.
    rewrite list_lookup_insert_eq; [done|]. unfold wf in Hwf. lia.
  - rewrite propagate_lookup_above.
    + rewrite list_lookup_insert_eq; [done|]. unfold wf in Hwf. lia.
    + pose proof (parent_below_leaves (capacity tr) slot). lia.
Qed.


(** The descent ends on a leaf of the array. *)
Lemma descend_bounds tr fuel i target :
  0 < capacity tr ->
  i < 2 * capacity tr - 1 ->
  capacity tr - 1 <= i + fuel ->
  capacity tr - 1 <= descend tr fuel i target < 2 * capacity tr - 1.
Proof.
  intros Hc. revert i target.
  induction fuel as [|fuel IH]; intros i target Hi Hf;
    cbn [descend]; [lia|].
  destruct (decide (i < capacity tr - 1)); [|lia].
  destruct (Qltb target (node tr (2 * i + 1))); apply IH; lia.
Qed.

Lemma sample_in_range tr lb ub u :
  wf tr -> 0 < capacity tr -> SumTree.sample tr lb ub u < capacity tr.
Proof.
  intros Hwf Hc. unfold SumTree.sample.
  pose proof (descend_bounds tr (length (nodes tr)) 0
                ((lb + u * (ub - lb)) * total tr)%Q Hc) as H.
  unfold wf in Hwf. lia.
Qed.

End SumTreeFacts.

(** ** The long-term store is a ring buffer *)

Section RingBuffer.
Import PrioritizedBuffer.

Lemma keys_in_range_size (s : t) :
  keys_in_range s -> size (_ltmemory s) <= _size s.
Proof.
  intros H. rewrite <- size_dom.
  rewrite <- (size_set_seq (C := gset nat) 0 (_size s)).
  apply subseteq_size. intros k Hk.
  apply elem_of_dom in Hk. apply elem_of_set_seq. split; [lia|].
  simpl. by apply H.
Qed.

Lemma commit_ltmemory_step (s : t) (e : lt_experience) :
  0 < _size s ->
  commit_ltmemory e s =
    Return tt
      (with_ptr ((_ptr s + 1) mod _size s)
         (with_sum_tree (SumTree.set (_sum_tree s) (_ptr s) None)
            (with_ltmemory (<[_ptr s := e]> (_ltmemory s)) s))).
Proof.
  intros Hs. unfold commit_ltmemory. simpl.
  destruct (decide (_size s = 0)); [lia|done].
Qed.

Lemma mod_shift_ne (p m n : nat) :
  p < n -> 0 < m < n -> (p + m) mod n <> p.
Proof.
  intros Hp Hm.
  destruct (decide (p + m < n)) as [Hlt|Hge].
  - rewrite Nat.mod_small; lia.
  - replace (p + m) with ((p + m - n) + 1 * n) by lia.
    rewrite Nat.Div0.mod_add, Nat.mod_small; lia.
Qed.

(** Slots the cursor does not pass keep their entry. *)
Lemma commit_all_untouched (es : list lt_experience) (s : t) (k : nat) :
  0 < _size s -> _ptr s < _size s ->
  (forall j, j < length es -> (_ptr s + j) mod _size s <> k) ->
  exists s', commit_all es s = Return tt s'
    /\ _size s' = _size s
    /\ _ptr s' = (_ptr s + length es) mod _size s
    /\ _ltmemory s' !! k = _ltmemory s !! k.
Proof.
  revert s. induction es as [|e es IH]; intros s Hs Hp Hk.
  - exists s. simpl. unfold ret. repeat split; try done.
    rewrite Nat.add_0_r, Nat.mod_small; done.
  - unfold commit_all in *. cbn [for_each]. unfold bind.
    rewrite commit_ltmemory_step by done.
    set (s1 := with_ptr _ _).
    destruct (IH s1) as (s' & Hrun & Hsz & Hptr & Hlk).
    + done.
    + simpl. by apply Nat.mod_upper_bound, Nat.neq_0_lt_0.
    + intros j Hj. simpl.
      rewrite Nat.Div0.add_mod_idemp_l.
      replace (_ptr s + 1 + j) with (_ptr s + S j) by lia.
      apply Hk. simpl. lia.
    + exists s'. rewrite Hrun. repeat split; try done.
      * rewrite Hptr. simpl. rewrite Nat.Div0.add_mod_idemp_l.
        f_equal. lia.
      * rewrite Hlk. simpl. apply lookup_insert_ne.
        specialize (Hk 0). rewrite Nat.add_0_r, Nat.mod_small in Hk by done.
        apply Hk. simpl. lia.
Qed.

(** After [es] has been committed, commit number [i] (counted from 0) is
    found [i] slots after the starting cursor, provided fewer than [size]
    commits followed it. *)
Lemma commit_all_recent (es : list lt_experience) (s : t) (i : nat) (e : lt_experience) :
  0 < _size s -> _ptr s < _size s ->
  es !! i = Some e -> length es - i <= _size s ->
  exists s', commit_all es s = Return tt s'
    /\ _ltmemory s' !! ((_ptr s + i) mod _size s) = Some e.
Proof.
  revert s i. induction es as [|e0 es IH]; intros s i Hs Hp Hi Hlen; [done|].
  unfold commit_all in *. cbn [for_each]. unfold bind.
  rewrite commit_ltmemory_step by done.
  set (s1 := with_ptr _ _).
  assert (_ptr s1 < _size s1) as Hp1.
  { simpl. by apply Nat.mod_upper_bound, Nat.neq_0_lt_0. }
  destruct i as [|i]; simpl in Hi.
  - injection Hi as ->. simpl in Hlen.
    destruct (commit_all_untouched es s1 (_ptr s)) as (s' & Hrun & _ & _ & Hlk);
      [done|done| |].
    + intros j Hj. simpl. rewrite Nat.Div0.add_mod_idemp_l.
      replace (_ptr s + 1 + j) with (_ptr s + (1 + j)) by lia.
      apply mod_shift_ne; lia.
    + exists s'. unfold commit_all in Hrun. rewrite Hrun. split; [done|].
      rewrite Nat.add_0_r, Nat.mod_small by done.
      rewrite Hlk. simpl. apply lookup_insert_eq.
  - destruct (IH s1 i) as (s' & Hrun & Hlk); [done|done|done|simpl in *; lia|].
    exists s'. rewrite Hrun. split; [done|].
    rewrite <- Hlk. simpl. rewrite Nat.Div0.add_mod_idemp_l.
    do 2 f_equal. lia.
Qed.

Lemma commit_all_cursor (es : list lt_experience) (s : t) :
  0 < _size s -> _ptr s < _size s ->
  exists s', commit_all es s = Return tt s'
    /\ _size s' = _size s
    /\ _ptr s' = (_ptr s + length es) mod _size s.
Proof.
  intros Hs Hp.
  destruct (commit_all_untouched es s (_size s) Hs Hp) as (s' & ? & ? & ? & _).
  - intros j _. pose proof (Nat.mod_upper_bound (_ptr s + j) (_size s)). lia.
  - by exists s'.
Qed.

(** C6.  One commit to the long-term store keeps the ring buffer in
    shape: the write cursor advances by one modulo the capacity and stays
    in [0 .. capacity-1]; the keys stay slots of that range, so at most
    [capacity] transitions are live; the slot under the old cursor now
    holds the new transition and every other slot is unchanged; and the
    priority entry of the written slot is reset to the priority a new
    transition is assigned (the tree's current maximum, or 1 for an empty
    tree).  Over a run of commits, a transition is still live as long as
    fewer than [capacity] commits followed it; hence once [capacity]
    commits were made the slot under the cursor, the next to be
    overwritten, holds the oldest live transition. *)
Theorem commit_ltmemory_ring_buffer (s : t) (e : lt_experience) :
  0 < _size s -> _ptr s < _size s -> buf_wf s -> keys_in_range s ->
  (exists s', commit_ltmemory e s = Return tt s'
     /\ _size s' = _size s
     /\ _ptr s' = (_ptr s + 1) mod _size s
     /\ _ptr s' < _size s'
     /\ keys_in_range s'
     /\ size (_ltmemory s') <= _size s'
     /\ buf_wf s'
     /\ _ltmemory s' !! _ptr s = Some e
     /\ (forall k, k <> _ptr s -> _ltmemory s' !! k = _ltmemory s !! k)
     /\ SumTree.get (_sum_tree s') (_ptr s)
          = SumTree.max_priority (_sum_tree s))
  /\ (forall es i e_i,
        es !! i = Some e_i -> length es - i <= _size s ->
        exists s', commit_all es s = Return tt s'
          /\ _ltmemory s' !! ((_ptr s + i) mod _size s) = Some e_i)
  /\ (forall es e_old,
        _size s <= length es ->
        es !! (length es - _size s) = Some e_old ->
        exists s', commit_all es s = Return tt s'
          /\ _ltmemory s' !! _ptr s' = Some e_old).
Proof.
  intros Hs Hp [Hwf Hcap] Hkeys. split; [|split].
  - eexists. split; [by apply commit_ltmemory_step|]. simpl.
    assert ((_ptr s + 1) mod _size s < _size s) as Hp'
      by (apply Nat.mod_upper_bound; lia).
    assert (forall k, is_Some (<[_ptr s:=e]> (_ltmemory s) !! k) -> k < _size s)
      as Hkeys'.
    { intros k. destruct (decide (k = _ptr s)) as [->|Hne]; [done|].
      rewrite lookup_insert_ne by done. apply Hkeys. }
    repeat split; try done.
    + by apply (keys_in_range_size (with_ltmemory _ s)).
    + by apply wf_set.
    + apply lookup_insert_eq.
    + intros k Hk. by apply lookup_insert_ne.
    + rewrite get_set_eq; [done|done|lia].
  - intros es i e_i Hi Hlen. by apply commit_all_recent.
  - intros es e_old Hlen Hold.
    destruct (commit_all_recent es s _ e_old Hs Hp Hold) as (s' & Hrun & Hlk);
      [lia|].
    destruct (commit_all_cursor es s Hs Hp) as (s2 & Hrun2 & Hsz & Hptr).
    rewrite Hrun in Hrun2. injection Hrun2 as <-.
    exists s'. split; [done|]. rewrite Hptr, <- Hlk. f_equal.
    replace (_ptr s + length es)
      with (_ptr s + (length es - _size s) + 1 * _size s) by lia.
    by rewrite Nat.Div0.mod_add.
Qed.

Lemma commit_ltmemory_ring_buffer_witness :
  exists s', commit_ltmemory (experience0 1) buffer4 = Return tt s'
    /\ _ptr s' = 1
    /\ SumTree.get (_sum_tree s') 0 = 1%Q.
Proof.
  assert (keys_in_range buffer4) as Hk.
  { intros k [x Hx]. simpl in Hx. rewrite lookup_empty in Hx. discriminate Hx. }
  destruct (commit_ltmemory_ring_buffer buffer4 (experience0 1))
    as [(s' & Hrun & _ & Hptr & _ & _ & _ & _ & _ & _ & Hprio) _].
  - simpl. lia.
  - simpl. lia.
  - split; reflexivity.
  - exact Hk.
  - exists s'. split; [exact Hrun|]. split; [exact Hptr|exact Hprio].
Defined.

End RingBuffer.

(** ** n-step aggregation *)

Section NStep.
Import PrioritizedBuffer.

Lemma for_each_preserves {A B} (f : t -> B) (xs : list A) (body : A -> M t unit) :
  (forall x s, f (final_state (body x s)) = f s) ->
  forall s, f (final_state (for_each xs body s)) = f s.
Proof.
  intros Hbody. induction xs as [|x xs IH]; intros s; [done|].
  cbn [for_each]. unfold bind.
  specialize (Hbody x s). destruct (body x s) as [[] s1|e s1]; simpl in *.
  - by rewrite IH.
  - done.
Qed.

Lemma commit_ltmemory_stmemory (e : lt_experience) (s : t) :
  _stmemory (final_state (commit_ltmemory e s)) = _stmemory s.
Proof.
  unfold commit_ltmemory. simpl. by destruct (decide (_size s = 0)).
Qed.

(** The short-term queue is filled nowhere but inside the aggregation
    branch, and that branch is entered only with [_n > 1] entries
    queued: starting empty, the queue stays empty and the branch is never
    taken, whatever [n_step_return] is. *)
Lemma commit_stmemory_queue_stays_empty (frag : fragment) (gamma : Q) (s : t) :
  _stmemory s = [] ->
  _stmemory (final_state (commit_stmemory frag gamma s)) = [].
Proof.
  intros Hq. destruct frag as [[[[states actions] rewards] next_states] dones].
  unfold commit_stmemory. rewrite Hq. simpl length.
  assert (bool_decide (1 < _n s) && bool_decide (_n s = 0) = false) as ->.
  { destruct (decide (_n s = 0)) as [H0|H0].
    - rewrite H0. done.
    - rewrite (bool_decide_eq_false_2 (_n s = 0)) by done.
      apply andb_false_r. }
  etransitivity; [|exact Hq].
  apply (for_each_preserves _stmemory). intros b s1.
  unfold mbind at 1. unfold M_bind, bind, lift.
  match goal with |- context [match ?r with Ok _ => _ | Raise _ => _ end] =>
    destruct r as [lt_exp|err] end; [|done].
  apply commit_ltmemory_stmemory.
Qed.

(** Were the branch entered, line 60 reads the key ['states'] from an
    entry stored under ['state']. *)
Lemma aggregate_reads_missing_key :
  aggregate [queued_entry 1 false; queued_entry 1 false] (1 # 2) 0
  = Raise (KeyError "states").
Proof. reflexivity. Qed.

(** C1.  With [n_step_return = 3] and discount 1/2, committing four
    fragments of reward 1 (none terminal) leaves the short-term queue
    empty and stores four transitions of reward 1 each: no transition
    carries the 3-step return 1 + 1/2 + 1/4 = 7/4. *)
Theorem commit_stmemory_three_step_unaggregated :
  exists s0 s4,
    init 8 3 (1 # 50) (3 # 5) (BetaTuple 0 1 10) = Ok s0
    /\ four_commits s0 = Return tt s4
    /\ _stmemory s4 = []
    /\ map (fun k => reward <$> _ltmemory s4 !! k) [0; 1; 2; 3; 4]
       = [Some 1%Q; Some 1%Q; Some 1%Q; Some 1%Q; None]
    /\ ~ (1 == 1 + (1 # 2) * 1 + (1 # 2) ^ 2 * 1)%Q.
Proof.
  eexists. eexists. split; [reflexivity|].
  split; [vm_compute; reflexivity|].
  split; [reflexivity|].
  split; [vm_compute; reflexivity|].
  intros H. vm_compute in H. discriminate H.
Qed.

End NStep.

(** ** Priority feedback *)

Section UpdateSamples.
Import PrioritizedBuffer.









End UpdateSamples.

(** ** The annealing of [beta] *)

Section BetaAnneal.
Import PrioritizedBuffer.

Lemma commit_ltmemory_beta (e : lt_experience) (s : t) :
  beta_fields (final_state (commit_ltmemory e s)) = beta_fields s.
Proof.
  unfold commit_ltmemory. simpl. by destruct (decide (_size s = 0)).
Qed.

Lemma aggregated_commit_beta (gamma : Q) (b : nat) (s : t) :
  beta_fields (final_state
    ((stmemory ← gets _stmemory;
      lt_exp ← lift (aggregate stmemory gamma b);
      commit_ltmemory lt_exp) s))
  = beta_fields s.
Proof.
  unfold mbind at 1. unfold M_bind, bind, gets.
  unfold mbind at 1. unfold M_bind, bind, lift.
  destruct (aggregate _ _ _); [apply commit_ltmemory_beta|done].
Qed.

Lemma commit_stmemory_beta (frag : fragment) (gamma : Q) (s : t) :
  beta_fields (final_state (commit_stmemory frag gamma s)) = beta_fields s.
Proof.
  destruct frag as [[[[states actions] rewards] next_states] dones].
  unfold commit_stmemory.
  destruct (bool_decide (1 < _n s) && bool_decide (_n s = length (_stmemory s))).
  - pose proof (for_each_preserves beta_fields
      (range (length states)) _ (aggregated_commit_beta gamma) s) as H.
    unfold mbind at 1. unfold M_bind, bind.
    match goal with |- context [for_each ?xs ?body s] =>
      set (o := for_each xs body s);
      change (beta_fields (final_state o) = beta_fields s) in H;
      destruct o as [[] s1|e s1] end; exact H.
  - apply (for_each_preserves beta_fields).
    intros b s1. unfold mbind at 1. unfold M_bind, bind, lift.
    match goal with |- context [match ?r with Ok _ => _ | Raise _ => _ end] =>
      destruct r as [lt_exp|err] end; [|done].
    apply commit_ltmemory_beta.
Qed.

Lemma update_samples_beta (errors : ndarray) (indexes : list nat) (s : t) :
  beta_fields (final_state (update_samples errors indexes s)) = beta_fields s.
Proof.
  unfold update_samples.
  destruct (_ && _); [|done].
  apply (for_each_preserves beta_fields).
  intros [error_idx mem_idx] s1.
  unfold mbind, M_bind, bind, lift.
  by destruct (getitem _ _).
Qed.

(** [sample] either raises before line 101 and leaves [beta] alone, or
    moves it to [min(beta + beta_inc, beta_max)]. *)
Lemma sample_beta {A} (batch_size : nat) (fn : list sample_tuple -> A)
    (draw : nat -> Q) (s : t) :
  let s' := final_state (sample batch_size fn draw s) in
  _beta_max s' = _beta_max s /\ _beta_inc s' = _beta_inc s
  /\ (_beta s' = _beta s
      \/ _beta s' = Qmin (_beta s + _beta_inc s) (_beta_max s)).
Proof.
  unfold sample. unfold mbind at 1. unfold M_bind, bind, lift.
  destruct (traverse _ _) as [samples|e]; [|by repeat split; left].
  unfold mbind at 1. unfold M_bind, bind.
  destruct (if negb (Qeq_bool (_beta s) 0) then _ else _) as [w|e];
    [|by repeat split; left].
  simpl. by repeat split; right.
Qed.

Lemma beta_step_nonneg (arg : beta_arg) :
  increasing_schedule arg -> (0 <= beta_step arg)%Q.
Proof.
  destruct arg as [b|b b_max steps|]; simpl; try (intros; apply Qle_refl).
  intros [Hle Hsteps]. apply Qle_shift_div_l.
  - change 0%Q with (inject_Z 0). by rewrite <- Zlt_Qlt.
  - lra.
Qed.

Lemma init_beta_inv size n eps alpha arg s0 :
  init size n eps alpha arg = Ok s0 -> increasing_schedule arg ->
  _beta s0 = beta_start arg /\ beta_inv arg s0.
Proof.
  unfold init. destruct (decide (n = 0)); [done|].
  destruct arg as [b|b b_max steps|]; simpl.
  - intros [= <-] _. unfold beta_inv. simpl. repeat split; apply Qle_refl.
  - destruct (decide (steps = 0%Z)); [done|].
    intros [= <-] [Hle _]. unfold beta_inv. simpl.
    repeat split; [apply Qle_refl|done].
  - done.
Qed.

Lemma sample_beta_step arg batch_size draw s :
  increasing_schedule arg -> beta_inv arg s ->
  let s' := run_op (Sample batch_size draw) s in
  beta_inv arg s'
  /\ (_beta s <= _beta s')%Q
  /\ (_beta s' <= _beta s + beta_step arg)%Q
  /\ ((_beta s == beta_end arg)%Q -> (_beta s' == beta_end arg)%Q).
Proof.
  intros Hsched (Hmax & Hinc & Hlo & Hhi).
  pose proof (beta_step_nonneg arg Hsched) as Hstep.
  simpl. destruct (sample_beta batch_size (fun x => x) draw s)
    as (Hmax' & Hinc' & [Hb|Hb]); unfold beta_inv;
    rewrite Hmax', Hinc', Hb, ?Hmax, ?Hinc.
  - repeat split; try done; lra.
  - assert (_beta s <= Qmin (_beta s + beta_step arg) (beta_end arg))%Q as H1
      by (apply Q.min_glb; lra).
    pose proof (Q.le_min_l (_beta s + beta_step arg) (beta_end arg)) as H2.
    pose proof (Q.le_min_r (_beta s + beta_step arg) (beta_end arg)) as H3.
    repeat split; try done; lra.
Qed.

Lemma run_op_beta_inv arg o s :
  increasing_schedule arg -> beta_inv arg s -> beta_inv arg (run_op o s).
Proof.
  intros Hsched Hinv. destruct o as [frag gamma|bs draw|errors indexes|].
  - pose proof (commit_stmemory_beta frag gamma s) as [= Hb Hm Hi].
    unfold beta_inv, run_op. by rewrite Hb, Hm, Hi.
  - by apply sample_beta_step.
  - pose proof (update_samples_beta errors indexes s) as [= Hb Hm Hi].
    unfold beta_inv, run_op. by rewrite Hb, Hm, Hi.
  - done.
Qed.

Lemma run_beta_inv arg ops s :
  increasing_schedule arg -> beta_inv arg s -> beta_inv arg (run ops s).
Proof.
  intros Hsched. revert s. induction ops as [|o ops IH]; intros s Hinv; [done|].
  simpl. apply IH. by apply run_op_beta_inv.
Qed.

(** C7.  For a buffer built with an increasing schedule
    ([beta_start <= beta_end], reached over a positive number of steps, or
    a constant [beta]), [beta] is initialised to [beta_start]; in every
    state the buffer reaches it lies in [[beta_start, beta_end]]; one
    [sample()] call never decreases it and increases it by one increment
    [(beta_end - beta_start) / steps] at most; and once it equals
    [beta_end] a further [sample()] leaves it there. *)
Theorem beta_anneal (size n : nat) (eps alpha : Q) (arg : beta_arg) (s0 : t) :
  init size n eps alpha arg = Ok s0 ->
  increasing_schedule arg ->
  _beta s0 = beta_start arg
  /\ forall ops,
       let s := run ops s0 in
       (beta_start arg <= _beta s)%Q /\ (_beta s <= beta_end arg)%Q
       /\ forall batch_size draw,
            let s' := run_op (Sample batch_size draw) s in
            (_beta s <= _beta s')%Q
            /\ (_beta s' <= _beta s + beta_step arg)%Q
            /\ ((_beta s == beta_end arg)%Q -> (_beta s' == beta_end arg)%Q).
Proof.
  intros Hinit Hsched.
  destruct (init_beta_inv _ _ _ _ _ _ Hinit Hsched) as [Hstart Hinv].
  split; [done|]. intros ops s.
  pose proof (run_beta_inv arg ops s0 Hsched Hinv) as Hs.
  split; [apply Hs|]. split; [apply Hs|].
  intros batch_size draw.
  by destruct (sample_beta_step arg batch_size draw _ Hsched Hs) as (_ & ?).
Qed.

Lemma beta_anneal_witness :
  _beta buffer4 = 0%Q
  /\ (_beta (run [Sample 1 (fun _ => 0%Q)] buffer4) <= 1)%Q.
Proof.
  destruct (beta_anneal 4 1 (1 # 50) (3 # 5) (BetaTuple 0 1 10) buffer4)
    as [Hstart Hrun].
  - reflexivity.
  - simpl. split; [discriminate|reflexivity].
  - split; [exact Hstart|].
    exact (proj1 (proj2 (Hrun [Sample 1 (fun _ => 0%Q)]))).
Defined.

End BetaAnneal.

(** ** Stratified sampling *)

Section Stratified.
Import PrioritizedBuffer.

Lemma linspace01_nth (n i : nat) :
  i <= n -> nth i (linspace01 (n + 1)) 0%Q = (Qnat i / Qnat n)%Q.
Proof.
  intros Hi. unfold linspace01, range.
  rewrite nth_lookup, list_lookup_fmap, lookup_seq_lt by lia.
  simpl. by rewrite Nat.add_sub.
Qed.

Lemma Qnat_succ (i : nat) : (Qnat (i + 1) == Qnat i + 1)%Q.
Proof.
  unfold Qnat. rewrite Nat2Z.inj_add, inject_Z_plus. reflexivity.
Qed.

Lemma Qnat_pos (n : nat) : 0 < n -> (0 < Qnat n)%Q.
Proof.
  intros Hn. unfold Qnat. change 0%Q with (inject_Z 0).
  rewrite <- Zlt_Qlt. lia.
Qed.

(** The segments of [np.linspace(0., 1., batch_size + 1)]: the [i]-th one
    runs from [i / batch_size] to [(i + 1) / batch_size]. *)
Lemma segments_partition (batch_size i : nat) :
  i < batch_size ->
  let bounds := linspace01 (batch_size + 1) in
  (nth i bounds 0 == Qnat i / Qnat batch_size)%Q
  /\ (nth (i + 1) bounds 0 - nth i bounds 0 == 1 / Qnat batch_size)%Q
  /\ (nth 0 bounds 0 == 0)%Q
  /\ (nth batch_size bounds 0 == 1)%Q.
Proof.
  intros Hi. simpl. rewrite !linspace01_nth by lia.
  assert (0 < Qnat batch_size)%Q as Hpos by (apply Qnat_pos; lia).
  assert (~ (Qnat batch_size == 0)%Q) as Hne by lra.
  split; [|split; [|split]].
  - reflexivity.
  - rewrite Qnat_succ. field. exact Hne.
  - unfold Qnat. simpl. field. exact Hne.
  - field. exact Hne.
Qed.

(** The indexes a returning [sample] hands back are those of line 91. *)
Lemma sample_indexes {A} (batch_size : nat) (fn : list sample_tuple -> A)
    (draw : nat -> Q) (s s' : t) (a : A) (idx : list nat) (w : list R) :
  sample batch_size fn draw s = Return (a, idx, w) s' ->
  idx = map (fun i => SumTree.sample (_sum_tree s)
                        (nth i (linspace01 (batch_size + 1)) 0%Q)
                        (nth (i + 1) (linspace01 (batch_size + 1)) 0%Q)
                        (draw i))
            (range batch_size).
Proof.
  unfold sample. unfold mbind at 1. unfold M_bind, bind, lift.
  destruct (traverse _ _) as [samples|e]; [|done].
  unfold mbind at 1. unfold M_bind, bind.
  destruct (if negb (Qeq_bool (_beta s) 0) then _ else _) as [ws|e]; [|done].
  simpl. by intros [= _ <- _ _].
Qed.

(** C3, as the code has it.  A returning call [sample(batch_size)] with
    [batch_size > 0] cuts [[0, 1]] into [batch_size] contiguous segments
    of width [1 / batch_size], the [i]-th from [i / batch_size], the first
    starting at 0 and the last ending at 1, and returns [batch_size]
    indexes, the [i]-th being the slot [SumTree.sample] draws in the
    [i]-th segment, a slot of the buffer.  (Nothing keeps two segments
    from yielding the same slot.) *)
Theorem sample_one_slot_per_segment {A} (batch_size : nat)
    (fn : list sample_tuple -> A) (draw : nat -> Q) (s s' : t)
    (a : A) (idx : list nat) (w : list R) :
  0 < batch_size -> 0 < _size s -> buf_wf s ->
  sample batch_size fn draw s = Return (a, idx, w) s' ->
  let bounds := linspace01 (batch_size + 1) in
  length idx = batch_size
  /\ (nth 0 bounds 0 == 0)%Q /\ (nth batch_size bounds 0 == 1)%Q
  /\ forall i, i < batch_size ->
       (nth i bounds 0 == Qnat i / Qnat batch_size)%Q
       /\ (nth (i + 1) bounds 0 - nth i bounds 0 == 1 / Qnat batch_size)%Q
       /\ exists slot,
            idx !! i = Some slot
            /\ slot = SumTree.sample (_sum_tree s)
                        (nth i bounds 0%Q) (nth (i + 1) bounds 0%Q) (draw i)
            /\ slot < _size s.
Proof.
  intros Hbs Hsize [Hwf Hcap] Hrun bounds.
  apply sample_indexes in Hrun. fold bounds in Hrun.
  destruct (segments_partition batch_size 0 Hbs) as (_ & _ & H0 & H1).
  split; [|split; [exact H0|split; [exact H1|]]].
  - rewrite Hrun, length_map. apply length_seq.
  - intros i Hi.
    destruct (segments_partition batch_size i Hi) as (Hlo & Hwidth & _ & _).
    split; [exact Hlo|]. split; [exact Hwidth|].
    eexists. split; [|split; [reflexivity|]].
    + rewrite Hrun, list_lookup_fmap. unfold range.
      by rewrite lookup_seq_lt.
    + rewrite <- Hcap. apply sample_in_range; [done|lia].
Qed.

Lemma sample_one_slot_per_segment_witness :
  exists idx, returned_indexes (sample 2 (fun x => x) (fun _ => 1 # 2)%Q buffer4_one)
              = Some idx
    /\ length idx = 2.
Proof.
  destruct (sample 2 (fun x => x) (fun _ => 1 # 2)%Q buffer4_one)
    as [[[a idx] w] s'|e s'] eqn:Hrun.
  - exists idx. split; [reflexivity|].
    destruct (sample_one_slot_per_segment 2 (fun x => x) (fun _ => 1 # 2)%Q
                buffer4_one s' a idx w) as [Hlen _].
    + lia.
    + simpl. lia.
    + split; reflexivity.
    + exact Hrun.
    + exact Hlen.
  - discriminate Hrun.
Defined.

(** C3, as stated, fails: with one stored transition both segments of a
    batch of two lead to slot 0, which the batch then holds twice. *)
Lemma sample_repeats_slot :
  returned_indexes (sample 2 (fun x => x) (fun _ => 1 # 2)%Q buffer4_one)
  = Some [0; 0]
  /\ ~ NoDup [0; 0].
Proof.
  split; [reflexivity|].
  intros H. apply NoDup_cons in H as [H _]. apply H. by left.
Qed.

End Stratified.

(** ** Importance weights *)

Section RealLists.
Local Open Scope R_scope.

Lemma Rpower_pos (x y : R) : 0 < Rpower x y.
Proof. unfold Rpower. apply exp_pos. Qed.

Lemma Rpower_inv (x y : R) : 0 < x -> Rpower (/ x) y = Rpower x (- y).
Proof.
  intros Hx. unfold Rpower. rewrite ln_Rinv by done. f_equal. ring.
Qed.

Lemma foldl_Rmax_scale (c x : R) (xs : list R) :
  0 <= c ->
  foldl Rmax (x * c) (map (fun y => y * c) xs) = foldl Rmax x xs * c.
Proof.
  intros Hc. revert x. induction xs as [|y ys IH]; intros x; [done|].
  simpl. rewrite <- IH. f_equal.
  rewrite (Rmult_comm x c), (Rmult_comm y c), RmaxRmult by done.
  apply Rmult_comm.
Qed.

Lemma Rmaximum_scale (c : R) (xs : list R) :
  0 <= c ->
  Rmaximum (map (fun y => y * c) xs) = (fun m => m * c) <$> Rmaximum xs.
Proof.
  intros Hc. destruct xs as [|x xs]; [done|].
  simpl. by rewrite foldl_Rmax_scale.
Qed.

Lemma foldl_Rmax_ge (x : R) (xs : list R) : x <= foldl Rmax x xs.
Proof.
  revert x. induction xs as [|y ys IH]; intros x; simpl; [lra|].
  etransitivity; [apply (Rmax_l x y)|apply IH].
Qed.

Lemma Rmaximum_pos (xs : list R) (m : R) :
  Forall (fun x => 0 < x) xs -> Rmaximum xs = Some m -> 0 < m.
Proof.
  destruct xs as [|x xs]; [done|]. intros Hall [= <-].
  apply Forall_cons in Hall as [Hx _].
  pose proof (foldl_Rmax_ge x xs). lra.
Qed.

(** Dividing positive numbers by their maximum makes the maximum 1. *)
Lemma Rmaximum_normalised (xs : list R) (m : R) :
  Forall (fun x => 0 < x) xs -> Rmaximum xs = Some m ->
  Rmaximum (map (fun x => x / m) xs) = Some 1.
Proof.
  intros Hall Hm. pose proof (Rmaximum_pos xs m Hall Hm) as Hpos.
  unfold Rdiv. rewrite Rmaximum_scale, Hm.
  - simpl. f_equal. field. lra.
  - left. by apply Rinv_0_lt_compat.
Qed.

(** Scaling all entries by a positive constant does not change the
    normalised list. *)
Lemma normalise_scale (c : R) (xs : list R) (m : R) :
  0 < c -> Forall (fun x => 0 < x) xs -> Rmaximum xs = Some m ->
  exists m', Rmaximum (map (fun x => x * c) xs) = Some m'
    /\ map (fun x => x / m') (map (fun x => x * c) xs)
       = map (fun x => x / m) xs.
Proof.
  intros Hc Hall Hm. pose proof (Rmaximum_pos xs m Hall Hm) as Hpos.
  exists (m * c). split.
  - rewrite Rmaximum_scale, Hm by lra. done.
  - rewrite map_map. apply map_ext. intros x. field. lra.
Qed.

Lemma Rsum_pos (xs : list R) :
  xs <> [] -> Forall (fun x => 0 < x) xs -> 0 < Rsum xs.
Proof.
  intros Hne Hall. destruct xs as [|x xs]; [done|]. clear Hne.
  apply Forall_cons in Hall as [Hx Hall]. simpl.
  assert (0 <= Rsum xs); [|lra].
  induction Hall as [|y ys Hy _ IH]; simpl; lra.
Qed.

End RealLists.

Section ImportanceWeights.
Import PrioritizedBuffer.
Local Open Scope R_scope.

Lemma traverse_ok {A B} (f : A -> result B) (xs : list A) (ys : list B) :
  traverse f xs = Ok ys -> Forall (fun x => exists y, f x = Ok y) xs.
Proof.
  revert ys. induction xs as [|x xs IH]; intros ys; simpl; [constructor|].
  destruct (f x) as [y|e] eqn:Hx; [|done].
  destruct (traverse f xs) as [ys'|e]; [|done].
  intros _. constructor; [by exists y|by apply (IH ys')].
Qed.

(** What a returning [sample] computed. *)
Lemma sample_returns {A} (batch_size : nat) (fn : list sample_tuple -> A)
    (draw : nat -> Q) (s s' : t) (a : A) (idx : list nat) (w : list R) :
  sample batch_size fn draw s = Return (a, idx, w) s' ->
  length idx = batch_size
  /\ Forall (fun slot => is_Some (_ltmemory s !! slot)) idx
  /\ (if negb (Qeq_bool (_beta s) 0)
      then is_weights (SumTree.len (_sum_tree s)) (_alpha s) (_beta s)
             (map (fun i => (SumTree.get (_sum_tree s) i + _eps s)%Q) idx)
           = Ok w
      else w = map (fun _ => 1) idx).
Proof.
  intros Hrun. pose proof (sample_indexes _ _ _ _ _ _ _ _ Hrun) as Hidx.
  revert Hrun. unfold sample. rewrite <- Hidx.
  unfold mbind at 1. unfold M_bind, bind, lift.
  destruct (traverse _ _) as [samples|e] eqn:Htr; [|done].
  unfold mbind at 1. unfold M_bind, bind.
  destruct (negb (Qeq_bool (_beta s) 0)).
  - destruct (is_weights _ _ _ _) as [ws|e]; [|done].
    simpl. intros [= _ <-]. split; [|split; [|done]].
    + rewrite Hidx, length_map. apply length_seq.
    + apply traverse_ok in Htr. eapply Forall_impl; [exact Htr|].
      intros slot [y Hy]. simpl in Hy. by destruct (_ltmemory s !! slot).
  - simpl. intros [= _ <-]. split; [|split; [|done]].
    + rewrite Hidx, length_map. apply length_seq.
    + apply traverse_ok in Htr. eapply Forall_impl; [exact Htr|].
      intros slot [y Hy]. simpl in Hy. by destruct (_ltmemory s !! slot).
Qed.

Lemma stored_mass_pos (s : t) (slot : nat) :
  is_Some (_ltmemory s !! slot) -> 0 < stored_mass s.
Proof.
  intros Hslot. apply Rsum_pos.
  - assert (slot ∈ stored_slots s) as Hin.
    { unfold stored_slots. by apply elem_of_elements, elem_of_dom. }
    destruct (stored_slots s); [by apply elem_of_nil in Hin|done].
  - apply Forall_map. apply Forall_forall. intros x _. apply Rpower_pos.
Qed.

(** The code normalises the probabilities by the sum over the batch,
    [total]; the specification by the sum over all stored slots.  The two
    raw weights differ by the constant factor [(total / stored_mass)^beta]. *)
Lemma raw_weight_factor (s : t) (slot : nat) (total : R) :
  0 < total -> 0 < stored_mass s -> (0 < len s)%nat ->
  Rpower (1 / (INR (len s) * (priority_pow s slot / total))) (Q2R (_beta s))
  = spec_weight s slot * Rpower (total / stored_mass s) (Q2R (_beta s)).
Proof.
  intros Ht Hs Hn.
  pose proof (Rpower_pos (Q2R (SumTree.get (_sum_tree s) slot + _eps s))
                (Q2R (_alpha s))) as Hp.
  fold (priority_pow s slot) in Hp.
  assert (0 < INR (len s)) as HN by (by apply lt_0_INR).
  assert (0 < INR (len s) * spec_probability s slot) as Hx.
  { unfold spec_probability. apply Rmult_lt_0_compat; [done|].
    by apply Rdiv_lt_0_compat. }
  unfold spec_weight. rewrite <- Rpower_inv by done.
  rewrite Rpower_mult_distr.
  - f_equal. unfold spec_probability. field. lra.
  - by apply Rinv_0_lt_compat.
  - by apply Rdiv_lt_0_compat.
Qed.

Lemma foldl_Rmax_ones (xs : list nat) :
  foldl Rmax 1 (map (fun _ : nat => 1) xs) = 1.
Proof.
  induction xs as [|x xs IH]; [done|]. simpl.
  by rewrite Rmax_left by lra.
Qed.

(** C2.  For a returning call [sample(batch_size)] with a non-empty batch
    on a buffer holding [N = len > 0] priorities, every stored priority
    being positive once [eps] is added, the weights returned are those of
    the formula: [w_i = (N * P_i)^(-beta)] with
    [P_i = (p_i + eps)^alpha / sum_j (p_j + eps)^alpha], the sum over all
    stored slots, each divided by the largest [w_i] of the batch; and the
    largest returned weight is exactly 1. *)
Theorem importance_weights_normalised {A} (batch_size : nat)
    (fn : list sample_tuple -> A) (draw : nat -> Q) (s s' : t)
    (a : A) (idx : list nat) (w : list R) :
  (0 < batch_size)%nat -> (0 < len s)%nat -> positive_priorities s ->
  sample batch_size fn draw s = Return (a, idx, w) s' ->
  spec_weights s idx = Some w /\ Rmaximum w = Some 1.
Proof.
  intros Hbs Hn _ Hrun.
  destruct (sample_returns _ _ _ _ _ _ _ _ Hrun) as (Hlen & Hstored & Hw).
  destruct idx as [|i0 idx]; [simpl in Hlen; lia|].
  pose proof (Forall_inv Hstored) as H0. simpl in H0.
  pose proof (stored_mass_pos s i0 H0) as Hmass.
  set (sw := map (spec_weight s) (i0 :: idx)).
  assert (Forall (fun x => 0 < x) sw) as Hsw.
  { apply Forall_map, Forall_forall. intros x _. apply Rpower_pos. }
  destruct (Rmaximum sw) as [m|] eqn:Hm; [|done].
  assert (map (fun x => x / m) sw = w) as Heq.
  { destruct (negb (Qeq_bool (_beta s) 0)) eqn:Hbeta.
    - unfold is_weights, np_power in Hw. rewrite !map_map in Hw.
      set (total := Rsum _) in Hw.
      assert (0 < total) as Htotal.
      { apply Rsum_pos; [done|].
        apply Forall_map, Forall_forall. intros x _. apply Rpower_pos. }
      set (c := Rpower (total / stored_mass s) (Q2R (_beta s))).
      assert (0 < c) as Hc by apply Rpower_pos.
      pose proof (Rmaximum_pos sw m Hsw Hm) as Hmpos.
      assert (Rmaximum (map (fun x => spec_weight s x * c) (i0 :: idx))
              = Some (m * c)) as Hm'.
      { rewrite <- (map_map (spec_weight s) (fun y => y * c)).
        fold sw. rewrite Rmaximum_scale, Hm by lra. done. }
      erewrite (map_ext _ (fun x => spec_weight s x * c)) in Hw;
        [|intros x; by apply raw_weight_factor].
      rewrite Hm' in Hw.
      assert (forall x y : list R, @Ok (list R) x = Ok y -> x = y) as Hinj
        by (by intros x y [=]).
      apply Hinj. rewrite <- Hw. f_equal.
      unfold sw. rewrite !map_map. apply map_ext. intros x. field. lra.
    - apply negb_false_iff, Qeq_bool_eq, Qeq_eqR in Hbeta.
      assert (sw = map (fun _ => 1) (i0 :: idx)) as Hones.
      { apply map_ext. intros x. unfold spec_weight, Rpower.
        rewrite Hbeta. replace (- Q2R 0) with 0 by (unfold Q2R; simpl; lra).
        rewrite Rmult_0_l. apply exp_0. }
      rewrite Hones in Hm |- *. simpl in Hm.
      rewrite foldl_Rmax_ones in Hm. injection Hm as <-.
      rewrite Hw, map_map. apply map_ext. intros x. lra. }
  split.
  - unfold spec_weights. fold sw. by rewrite Hm, Heq.
  - rewrite <- Heq. by apply Rmaximum_normalised.
Qed.

Lemma importance_weights_normalised_witness :
  exists a idx w s',
    sample 2 (fun x => x) (fun _ => 1 # 2)%Q buffer4_half = Return (a, idx, w) s'
    /\ spec_weights buffer4_half idx = Some w
    /\ Rmaximum w = Some 1.
Proof.
  destruct (sample 2 (fun x => x) (fun _ => 1 # 2)%Q buffer4_half)
    as [[[a idx] w] s'|e s'] eqn:Hrun.
  - exists a, idx, w, s'. split; [reflexivity|].
    apply (importance_weights_normalised 2 (fun x => x) (fun _ => 1 # 2)%Q
             buffer4_half s' a idx w).
    + lia.
    + vm_compute. lia.
    + assert (stored_slots buffer4_half = [0%nat]) as Hslots
        by (vm_compute; reflexivity).
      unfold positive_priorities. rewrite Hslots.
      constructor; [vm_compute; reflexivity|constructor].
    + exact Hrun.
  - discriminate Hrun.
Defined.

End ImportanceWeights.

(** ** The DQN target *)

Section DQNTarget.
Import DQNAgent.

Lemma foldl_Qmax_in (x : Q) (xs : list Q) : foldl Qmax x xs ∈ x :: xs.
Proof.
  revert x. induction xs as [|y ys IH]; intros x; simpl; [by left|].
  specialize (IH (Qmax x y)).
  apply elem_of_cons in IH as [->|IH].
  - unfold Qmax, GenericMinMax.gmax.
    destruct (x ?= y)%Q; [by left|by right; left|by left].
  - by right; right.
Qed.

Lemma foldl_Qmax_upper (x : Q) (xs : list Q) :
  Forall (fun q => (q <= foldl Qmax x xs)%Q) (x :: xs).
Proof.
  revert x. induction xs as [|y ys IH]; intros x; simpl.
  - constructor; [apply Qle_refl|constructor].
  - specialize (IH (Qmax x y)). apply Forall_cons in IH as [Hxy Hys].
    constructor; [|constructor; [|done]].
    + eapply Qle_trans; [apply Q.le_max_l|exact Hxy].
    + eapply Qle_trans; [apply Q.le_max_r|exact Hxy].
Qed.

(** [reduce_max] of a non-empty row is an entry of the row and bounds
    every entry: it is [max_a Q(s, a)]. *)
Lemma reduce_max_is_max (row : list Q) :
  row <> [] ->
  reduce_max row ∈ row /\ Forall (fun q => (q <= reduce_max row)%Q) row.
Proof.
  destruct row as [|x xs]; [done|]. intros _. unfold reduce_max. simpl.
  split; [apply foldl_Qmax_in|apply foldl_Qmax_upper].
Qed.

Lemma target_values_lookup (gamma : Q) (rewards : list Q) (dones : list bool)
    (rows : list (list Q)) (i : nat) (r : Q) (d : bool) (row : list Q) :
  rewards !! i = Some r -> dones !! i = Some d -> rows !! i = Some row ->
  target_values gamma rewards dones rows !! i
  = Some (if d then r else (r + gamma * reduce_max row)%Q).
Proof.
  intros Hr Hd Hrow. unfold target_values.
  rewrite lookup_zip_with, Hd. simpl.
  rewrite lookup_zip_with, Hr. simpl.
  rewrite lookup_zip_with, Hr. simpl. rewrite Hrow. done.
Qed.

(** C5.  In [_loss], the target of the [i]-th sampled transition is its
    reward when [done] is true and
    [reward + gamma * max_a Q_target(next_state, a)] otherwise, the
    maximum taken over the target network's outputs at the next state.
    The targets do not depend on the online network at all, and the loss
    depends on the online network only through its outputs at the current
    states: what it returns at the next states changes nothing. *)
Theorem dqn_target_from_target_network
    (online_q target_q : observation -> list Q) (gamma : Q)
    (action_shape : nat) (states : list observation) (actions : list nat)
    (rewards : list Q) (new_states : list observation) (dones : list bool) :
  let mem : memories := (states, actions, rewards, new_states, dones) in
  (forall (i : nat) (r : Q) (d : bool) (s' : observation),
      rewards !! i = Some r -> dones !! i = Some d ->
      new_states !! i = Some s' ->
      loss_targets online_q target_q gamma mem !! i
      = Some (if d then r else (r + gamma * reduce_max (target_q s'))%Q))
  /\ (forall s', target_q s' <> [] ->
        reduce_max (target_q s') ∈ target_q s'
        /\ Forall (fun q => (q <= reduce_max (target_q s'))%Q) (target_q s'))
  /\ _loss online_q target_q gamma action_shape mem
     = reduce_mean
         (zip_with mean_squared_error (map online_q states)
            (zip_with (fun (a : nat) '((t, c) : Q * list Q) =>
                         target_q_row action_shape a t c)
               actions
               (zip (loss_targets online_q target_q gamma mem)
                    (map online_q states))))
  /\ (forall online_q',
        loss_targets online_q' target_q gamma mem
        = loss_targets online_q target_q gamma mem)
  /\ (forall online_q',
        Forall (fun st => online_q' st = online_q st) states ->
        _loss online_q' target_q gamma action_shape mem
        = _loss online_q target_q gamma action_shape mem).
Proof.
  simpl. split; [|split; [|split; [|split]]].
  - intros i r d s' Hr Hd Hs.
    apply target_values_lookup; [done|done|].
    by rewrite list_lookup_fmap, Hs.
  - intros s'. apply reduce_max_is_max.
  - reflexivity.
  - reflexivity.
  - intros online_q' Hagree.
    assert (map online_q' states = map online_q states) as ->; [|done].
    apply map_ext_Forall. exact Hagree.
Qed.

End DQNTarget.

(** ** Target synchronisation *)

Section TargetSync.
Import DQNAgent.

Lemma update_target_lookup (tau : Q) (source target : list Q) (i : nat) (sv tv : Q) :
  source !! i = Some sv -> target !! i = Some tv ->
  _update_target tau source target !! i = Some ((1 - tau) * tv + tau * sv)%Q.
Proof.
  intros Hs Ht. unfold _update_target.
  rewrite lookup_app_l.
  - by rewrite lookup_zip_with, Hs, Ht.
  - rewrite length_zip_with.
    apply lookup_lt_Some in Hs, Ht. lia.
Qed.

Lemma update_target_hard_copy (source target : list Q) :
  length source = length target ->
  Forall2 Qeq (_update_target 1 source target) source.
Proof.
  intros Hlen. unfold _update_target.
  rewrite drop_ge, app_nil_r by lia.
  revert target Hlen. induction source as [|sv source IH];
    intros [|tv target] Hlen; simpl in *; try done.
  constructor; [ring|]. apply IH. lia.
Qed.

(** C8.  One synchronisation sets every target variable that has an
    online counterpart to [(1 - tau) * target + tau * online]; with
    [tau = 1] and as many target as online variables, the target variables
    afterwards equal the online ones. *)
Theorem update_target_interpolates (tau : Q) (source target : list Q) :
  (forall (i : nat) (sv tv : Q),
      source !! i = Some sv -> target !! i = Some tv ->
      _update_target tau source target !! i
      = Some ((1 - tau) * tv + tau * sv)%Q)
  /\ length (_update_target tau source target) = length target
  /\ (length source = length target ->
      Forall2 Qeq (_update_target 1 source target) source).
Proof.
  split; [|split].
  - intros i sv tv. apply update_target_lookup.
  - unfold _update_target.
    rewrite length_app, length_zip_with, length_drop. lia.
  - apply update_target_hard_copy.
Qed.

End TargetSync.

(** ** Non-finite losses *)

Section NonFiniteLoss.

(** [VPG._train]: the assertion of line 157 stops a non-finite loss
    before any gradient is applied. *)
Lemma vpg_train_guard (float_loss : VPG.t -> fval)
    (actor_step critic_step : VPG.t -> list Q) (s : VPG.t) :
  non_finite (float_loss s) = true ->
  VPG._train float_loss actor_step critic_step s = Throw AssertionError s.
Proof.
  unfold VPG._train, non_finite.
  by destruct (float_loss s).
Qed.

(** [DQNAgent._train] has no such test: whatever the loss, the optimizer
    step is taken and the int32 counter advances. *)
Lemma dqn_train_unguarded (memory_sample : nat -> result DQNAgent.memories)
    (float_loss : list Q -> list Q -> DQNAgent.memories -> fval)
    (apply_gradients : list Q -> list Q -> DQNAgent.memories -> list Q)
    (update_eps : Q -> Q) (batch_size : nat) (mem : DQNAgent.memories)
    (s : DQNAgent.t) :
  memory_sample batch_size = Ok mem ->
  DQNAgent._target_update_period s <> 0 ->
  exists s',
    DQNAgent._train memory_sample float_loss apply_gradients update_eps
      batch_size s
    = Return (float_loss (DQNAgent.online_variables s)
                         (DQNAgent.target_variables s) mem) s'
    /\ DQNAgent.online_variables s'
       = apply_gradients (DQNAgent.online_variables s)
                         (DQNAgent.target_variables s) mem
    /\ DQNAgent._train_step s'
       = DQNAgent.wrap_int32 (DQNAgent._train_step s + 1).
Proof.
  intros Hmem Hperiod. unfold DQNAgent._train. rewrite Hmem.
  destruct (decide (DQNAgent._target_update_period s = 0)); [done|].
  eexists. split; [reflexivity|]. by split.
Qed.

(** C9.  On a batch whose loss evaluates to NaN, [DQNAgent._train]
    returns normally: the variables the optimizer produced are installed
    and the step counter goes from 0 to 1.  [VPG._train] raises
    [AssertionError] on the same loss and leaves the agent untouched. *)
Theorem dqn_train_continues_on_nan :
  DQNAgent._train (fun _ => Ok dqn_batch0) (fun _ _ _ => NaN)
    (fun _ _ _ => [0%Q]) (fun e => e) 1 dqn_agent0
  = Return NaN (DQNAgent.mk [0%Q] [1%Q] 1 500 1 (1 # 10))
  /\ VPG._train (fun _ => NaN) (fun _ => [0%Q]) (fun _ => [0%Q]) vpg_agent0
     = Throw AssertionError vpg_agent0.
Proof. split; reflexivity. Qed.

End NonFiniteLoss.

(** ** The greedy action under a mask *)

Section MaskedArgmax.
Import QPolicy.

Lemma qval_le_refl x : qval_le x x.
Proof. destruct x; simpl; [done|apply Qle_refl]. Qed.

Lemma qval_le_trans x y z : qval_le x y -> qval_le y z -> qval_le x z.
Proof.
  destruct x, y, z; simpl; try done. apply Qle_trans.
Qed.

Lemma qval_ltb_le x y : qval_ltb x y = true -> qval_le x y.
Proof.
  destruct x, y; simpl; try done.
  rewrite Qltb_lt. apply Qlt_le_weak.
Qed.

Lemma qval_ltb_false_le x y : qval_ltb x y = false -> qval_le y x.
Proof.
  destruct x, y; simpl; try done.
  intros H. apply Qnot_lt_le. rewrite <- Qltb_lt. by rewrite H.
Qed.

(** The scan ends on an entry that bounds the running best and every
    entry scanned. *)
Lemma argmax_from_spec (best_i : nat) (best : qval) (i : nat) (xs : list qval) :
  exists v,
    qval_le best v /\ Forall (fun x => qval_le x v) xs
    /\ ((argmax_from best_i best i xs = best_i /\ v = best)
        \/ exists k, argmax_from best_i best i xs = i + k /\ xs !! k = Some v).
Proof.
  revert best_i best i. induction xs as [|x xs IH]; intros best_i best i.
  - exists best. split; [apply qval_le_refl|]. split; [constructor|by left].
  - simpl. destruct (qval_ltb best x) eqn:Hlt.
    + destruct (IH i x (S i)) as (v & Hxv & Hall & Hres).
      exists v. split; [|split].
      * eapply qval_le_trans; [by apply qval_ltb_le|done].
      * by constructor.
      * right. destruct Hres as [[Hr ->]|(k & Hr & Hk)].
        -- exists 0. by rewrite Nat.add_0_r.
        -- exists (S k). split; [lia|done].
    + destruct (IH best_i best (S i)) as (v & Hbv & Hall & Hres).
      exists v. split; [done|]. split.
      * constructor; [|done].
        eapply qval_le_trans; [by apply qval_ltb_false_le|done].
      * destruct Hres as [Hr|(k & Hr & Hk)]; [by left|].
        right. exists (S k). split; [lia|done].
Qed.

Lemma argmax_spec (row : list qval) :
  row <> [] ->
  exists a v, argmax row = Ok a /\ row !! a = Some v
              /\ Forall (fun x => qval_le x v) row.
Proof.
  destruct row as [|x xs]; [done|]. intros _. simpl.
  destruct (argmax_from_spec 0 x 1 xs) as (v & Hxv & Hall & Hres).
  exists (argmax_from 0 x 1 xs), v. split; [done|]. split; [|by constructor].
  destruct Hres as [[-> ->]|(k & -> & Hk)]; done.
Qed.

(** C10.  With a boolean mask of one entry per action, at least one of
    them true, [_act] returns one index; the mask is true there, and the
    Q-value there is the largest among the allowed actions.  Without a
    mask, [_act] returns the index of a largest Q-value over all
    actions. *)
Theorem act_respects_mask (q_network : list Q -> list Q) (obs : list Q)
    (mask : list bool) (allowed : nat) :
  length mask = length (q_network obs) ->
  mask !! allowed = Some true ->
  (exists a qa,
      _act q_network obs (Some mask) = Ok [a]
      /\ mask !! a = Some true
      /\ q_network obs !! a = Some qa
      /\ forall (j : nat) (q : Q),
           mask !! j = Some true -> q_network obs !! j = Some q ->
           (q <= qa)%Q)
  /\ (exists a qa,
        _act q_network obs None = Ok [a]
        /\ q_network obs !! a = Some qa
        /\ Forall (fun q => (q <= qa)%Q) (q_network obs)).
Proof.
  intros Hlen Hallowed.
  assert (exists q0, q_network obs !! allowed = Some q0) as [q0 Hq0].
  { apply lookup_lt_is_Some. rewrite <- Hlen. by eapply lookup_lt_Some. }
  split.
  - unfold _act, where_mask.
    destruct (decide (length mask = length (q_network obs))); [|done].
    set (pick := fun (m : bool) (q : Q) => if m then Fin q else NInf).
    set (row := zip_with pick mask (q_network obs)).
    assert (row !! allowed = Some (Fin q0)) as Hrow0.
    { unfold row. by rewrite lookup_zip_with, Hallowed, Hq0. }
    destruct (argmax_spec row) as (a & v & Harg & Hv & Hmax).
    { intros Hnil. by rewrite Hnil in Hrow0. }
    assert (exists qa, v = Fin qa) as [qa ->].
    { rewrite Forall_lookup in Hmax. specialize (Hmax _ _ Hrow0).
      destruct v; [done|by eexists]. }
    unfold row in Hv. rewrite lookup_zip_with in Hv.
    destruct (mask !! a) as [m|] eqn:Hma; [|done].
    destruct (q_network obs !! a) as [qa'|] eqn:Hqa; [|done].
    simpl in Hv. destruct m; [|done]. injection Hv as ->.
    exists a, qa. simpl. rewrite Harg. simpl.
    split; [done|]. split; [done|]. split; [done|].
    intros j q Hmj Hqj.
    rewrite Forall_lookup in Hmax.
    assert (row !! j = Some (Fin q)) as Hrj.
    { unfold row. by rewrite lookup_zip_with, Hmj, Hqj. }
    exact (Hmax _ _ Hrj).
  - unfold _act.
    destruct (argmax_spec (map Fin (q_network obs))) as (a & v & Harg & Hv & Hmax).
    { intros Hnil. apply fmap_nil_inv in Hnil. by rewrite Hnil in Hq0. }
    rewrite list_lookup_fmap in Hv.
    destruct (q_network obs !! a) as [qa|] eqn:Hqa; [|done].
    simpl in Hv. injection Hv as <-.
    exists a, qa. simpl. rewrite Harg. simpl.
    split; [done|]. split; [done|].
    by apply Forall_fmap in Hmax.
Qed.

Lemma act_respects_mask_witness :
  exists a, _act (fun _ => [5; 1; 3]%Q) [0%Q] (Some [false; true; true]) = Ok [a]
            /\ [false; true; true] !! a = Some true.
Proof.
  destruct (act_respects_mask (fun _ => [5; 1; 3]%Q) [0%Q]
              [false; true; true] 1) as [(a & qa & Hact & Hmask & _) _].
  - reflexivity.
  - reflexivity.
  - exists a. split; [exact Hact|exact Hmask].
Defined.

End MaskedArgmax.

(** ** Committing a fragment directly *)

Section DirectCommit.
Import PrioritizedBuffer.

Lemma traverse_total {A B} (f : A -> result B) (xs : list A) :
  Forall (fun x => exists y, f x = Ok y) xs ->
  exists ys, traverse f xs = Ok ys
    /\ length ys = length xs
    /\ forall i x, xs !! i = Some x -> exists y, ys !! i = Some y /\ f x = Ok y.
Proof.
  induction 1 as [|x xs [y Hy] _ (ys & Hys & Hlen & Hlk)].
  - exists []. by repeat split.
  - exists (y :: ys). simpl. rewrite Hy, Hys. split; [done|].
    split; [by rewrite Hlen|].
    intros [|i] x' Hx'; simpl in *.
    + injection Hx' as <-. by exists y.
    + by apply Hlk.
Qed.

Lemma for_each_traverse {S A B} (f : A -> result B) (g : B -> M S unit)
    (xs : list A) (ys : list B) (s : S) :
  traverse f xs = Ok ys ->
  for_each xs (fun x => y ← lift (f x); g y) s = for_each ys g s.
Proof.
  revert ys s. induction xs as [|x xs IH]; intros ys s Htr; simpl in Htr.
  - by injection Htr as <-.
  - destruct (f x) as [y|e] eqn:Hx; [|done].
    destruct (traverse f xs) as [ys'|e] eqn:Hxs; [|done].
    injection Htr as <-. cbn [for_each]. unfold bind at 1.
    unfold mbind, M_bind, bind, lift. rewrite Hx.
    destruct (g y s) as [[] s1|e s1]; [|done].
    by apply IH.
Qed.

Lemma commit_stmemory_unfold (frag : fragment) (gamma : Q) (s : t) :
  commits_directly s ->
  commit_stmemory frag gamma s
  = for_each (range (length frag.1.1.1.1))
      (fun b => e ← lift (direct_row frag b); commit_ltmemory e) s.
Proof.
  intros Hdirect.
  destruct frag as [[[[states actions] rewards] next_states] dones].
  unfold commit_stmemory. simpl.
  destruct (bool_decide (1 < _n s) && bool_decide (_n s = length (_stmemory s)))
    eqn:Hcond; [|done].
  apply andb_true_iff in Hcond as [H1 H2].
  apply bool_decide_eq_true in H1, H2. by destruct Hdirect.
Qed.

Lemma direct_row_cases (frag : fragment) (b : nat) :
  (exists e, direct_row frag b = Ok e) \/ direct_row frag b = Raise IndexError.
Proof.
  destruct frag as [[[[states actions] rewards] next_states] dones].
  unfold direct_row, getitem, mbind, result_bind, rbind.
  destruct (states !! b); [|by right].
  destruct (actions !! b); [|by right].
  destruct (rewards !! b); [|by right].
  destruct (next_states !! b); [|by right].
  destruct (dones !! b); [|by right].
  left. by eexists.
Qed.

Lemma direct_row_lookup (states : list observation) (actions : list act)
    (rewards : list Q) (next_states : list observation) (dones : list bool)
    (b : nat) (s_b : observation) (a_b : act) (r_b : Q) (s'_b : observation)
    (d_b : bool) :
  states !! b = Some s_b -> actions !! b = Some a_b -> rewards !! b = Some r_b ->
  next_states !! b = Some s'_b -> dones !! b = Some d_b ->
  direct_row (states, actions, rewards, next_states, dones) b
  = Ok (mk_experience s_b a_b r_b (OneState s'_b) d_b).
Proof.
  intros Hs Ha Hr Hn Hd.
  unfold direct_row, getitem, mbind, result_bind, rbind.
  by rewrite Hs, Ha, Hr, Hn, Hd.
Qed.

Lemma commit_all_stmemory (es : list lt_experience) (s : t) :
  _stmemory (final_state (commit_all es s)) = _stmemory s.
Proof.
  apply (for_each_preserves _stmemory). intros e s1.
  apply commit_ltmemory_stmemory.
Qed.

(** X1.  A fragment of [n] transitions, committed to a buffer that does not
    aggregate, is stored transition by transition: item [b] lands [b] slots
    after the cursor (modulo the size), unchanged, the cursor ends [n]
    slots further and the short-term queue is not touched.  (Of a fragment
    longer than the buffer only the last [size] items survive.) *)
Theorem commit_stmemory_stores_fragment (states : list observation)
    (actions : list act) (rewards : list Q) (next_states : list observation)
    (dones : list bool) (gamma : Q) (s : t) (n : nat) :
  let frag : fragment := (states, actions, rewards, next_states, dones) in
  commits_directly s -> 0 < _size s -> _ptr s < _size s ->
  fragment_length frag n ->
  exists s', commit_stmemory frag gamma s = Return tt s'
    /\ _ptr s' = (_ptr s + n) mod _size s
    /\ _stmemory s' = _stmemory s
    /\ forall (b : nat) (s_b : observation) (a_b : act) (r_b : Q)
              (s'_b : observation) (d_b : bool),
         states !! b = Some s_b -> actions !! b = Some a_b ->
         rewards !! b = Some r_b -> next_states !! b = Some s'_b ->
         dones !! b = Some d_b ->
         n - b <= _size s ->
         _ltmemory s' !! ((_ptr s + b) mod _size s)
         = Some (mk_experience s_b a_b r_b (OneState s'_b) d_b).
Proof.
  intros frag Hdirect Hsize Hptr (Hls & Hla & Hlr & Hln & Hld).
  destruct (traverse_total (direct_row frag) (range n)) as (es & Hes & Hlen & Hlk).
  { apply Forall_forall. intros b Hb. apply elem_of_seq in Hb.
    destruct (lookup_lt_is_Some_2 states b) as [s_b Hs]; [lia|].
    destruct (lookup_lt_is_Some_2 actions b) as [a_b Ha]; [lia|].
    destruct (lookup_lt_is_Some_2 rewards b) as [r_b Hr]; [lia|].
    destruct (lookup_lt_is_Some_2 next_states b) as [s'_b Hn]; [lia|].
    destruct (lookup_lt_is_Some_2 dones b) as [d_b Hd]; [lia|].
    eexists. by apply direct_row_lookup. }
  unfold range in Hlen. rewrite length_seq in Hlen.
  destruct (commit_all_cursor es s Hsize Hptr) as (s' & Hrun & Hsz & Hcur).
  exists s'.
  assert (commit_stmemory frag gamma s = Return tt s') as Hcommit.
  { rewrite commit_stmemory_unfold by done. simpl. rewrite Hls.
    by rewrite (for_each_traverse _ _ _ es). }
  split; [done|]. split; [by rewrite Hcur, Hlen|]. split.
  - pose proof (commit_all_stmemory es s) as Hq. by rewrite Hrun in Hq.
  - intros b s_b a_b r_b s'_b d_b Hs Ha Hr Hn Hd Hb.
    assert (b < n) as Hbn by (apply lookup_lt_Some in Hs; lia).
    destruct (Hlk b b) as (e & He & Hrow).
    { unfold range. by rewrite lookup_seq_lt. }
    unfold frag in Hrow.
    rewrite (direct_row_lookup _ _ _ _ _ _ _ _ _ _ _ Hs Ha Hr Hn Hd) in Hrow.
    injection Hrow as <-.
    destruct (commit_all_recent es s b _ Hsize Hptr He) as (s2 & Hrun2 & Hlk2);
      [lia|].
    rewrite Hrun in Hrun2. by injection Hrun2 as <-.
Qed.

Lemma commit_stmemory_stores_fragment_witness :
  exists s', commit_stmemory ([[1%Q]; [2%Q]], [0; 1], [3%Q; 4%Q],
                              [[2%Q]; [3%Q]], [false; true]) (1 # 2) buffer4
             = Return tt s'
    /\ _ptr s' = 2
    /\ _ltmemory s' !! 1
       = Some (mk_experience [2%Q] 1 4 (OneState [3%Q]) true).
Proof.
  destruct (commit_stmemory_stores_fragment [[1%Q]; [2%Q]] [0; 1] [3%Q; 4%Q]
              [[2%Q]; [3%Q]] [false; true] (1 # 2) buffer4 2)
    as (s' & Hrun & Hptr & _ & Hrows).
  - intros [H _]. simpl in H. lia.
  - simpl. lia.
  - simpl. lia.
  - repeat split.
  - exists s'. split; [exact Hrun|]. split; [exact Hptr|].
    apply (Hrows 1); try reflexivity. simpl. lia.
Defined.

End DirectCommit.

(** ** A fragment whose columns disagree in length *)

Section RaggedFragment.
Import PrioritizedBuffer.

Lemma for_each_first_failure (f : nat -> result lt_experience) (xs : list nat) (s : t) :
  0 < _size s ->
  (forall x, (exists e, f x = Ok e) \/ f x = Raise IndexError) ->
  (exists x, x ∈ xs /\ f x = Raise IndexError) ->
  exists s', for_each xs (fun x => e ← lift (f x); commit_ltmemory e) s
             = Throw IndexError s'.
Proof.
  intros Hsize Hcases. revert s Hsize.
  induction xs as [|x xs IH]; intros s Hsize (x0 & Hin & Hfail).
  - by apply elem_of_nil in Hin.
  - cbn [for_each]. unfold bind at 1. unfold mbind, M_bind, bind, lift.
    destruct (Hcases x) as [[e He]| He]; rewrite He.
    + rewrite commit_ltmemory_step by done.
      apply IH; [done|].
      apply elem_of_cons in Hin as [->|Hin]; [congruence|by exists x0].
    + by exists s.
Qed.

(** X2.  When a column of the fragment is shorter than [states], a directly
    committing buffer raises [IndexError] (the items before the short
    column's end are committed first). *)
Theorem commit_stmemory_ragged (states : list observation) (actions : list act)
    (rewards : list Q) (next_states : list observation) (dones : list bool)
    (gamma : Q) (s : t) :
  commits_directly s -> 0 < _size s ->
  length actions < length states \/ length rewards < length states
  \/ length next_states < length states \/ length dones < length states ->
  exists s', commit_stmemory (states, actions, rewards, next_states, dones) gamma s
             = Throw IndexError s'.
Proof.
  intros Hdirect Hsize Hshort.
  rewrite commit_stmemory_unfold by done. cbn [fst].
  apply for_each_first_failure;
    [done|intros x; apply direct_row_cases|].
  assert (exists b, b < length states
                    /\ (actions !! b = None \/ rewards !! b = None
                        \/ next_states !! b = None \/ dones !! b = None))
    as (b & Hb & Hnone).
  { destruct Hshort as [H|[H|[H|H]]].
    - exists (length actions). split; [done|]. left. by apply lookup_ge_None.
    - exists (length rewards). split; [done|]. right; left. by apply lookup_ge_None.
    - exists (length next_states). split; [done|].
      right; right; left. by apply lookup_ge_None.
    - exists (length dones). split; [done|].
      right; right; right. by apply lookup_ge_None. }
  exists b. split; [apply elem_of_seq; lia|].
  destruct (direct_row_cases (states, actions, rewards, next_states, dones) b)
    as [[e He]|He]; [|done].
  exfalso. revert He.
  unfold direct_row, getitem, mbind, result_bind, rbind.
  destruct (states !! b); [|done].
  destruct (actions !! b); [|done].
  destruct (rewards !! b); [|done].
  destruct (next_states !! b); [|done].
  destruct (dones !! b); [|done].
  intros _. destruct Hnone as [H|[H|[H|H]]]; discriminate H.
Qed.

Lemma commit_stmemory_ragged_witness :
  exists s', commit_stmemory ([[1%Q]; [2%Q]], [0; 1], [3%Q], [[2%Q]; [3%Q]],
                              [false; true]) (1 # 2) buffer4
             = Throw IndexError s'.
Proof.
  apply (commit_stmemory_ragged [[1%Q]; [2%Q]] [0; 1] [3%Q] [[2%Q]; [3%Q]]
           [false; true] (1 # 2) buffer4).
  - intros [H _]. simpl in H. lia.
  - simpl. lia.
  - right; left. simpl. lia.
Defined.

End RaggedFragment.

(** ** Edge cases and frame of [sample] and [update_samples] *)

Section SampleEdges.
Import PrioritizedBuffer.

Lemma sample_frame {A} (batch_size : nat)
    (fn : list sample_tuple -> A) (draw : nat -> Q) (s : t) :
  final_state (sample batch_size fn draw s)
  = with_beta (_beta (final_state (sample batch_size fn draw s))) s.
Proof.
  unfold sample. unfold mbind at 1. unfold M_bind, bind, lift.
  destruct (traverse _ _) as [samples|e]; [|by destruct s].
  unfold mbind at 1. unfold M_bind, bind.
  destruct (if negb (Qeq_bool (_beta s) 0) then _ else _) as [w|e];
    [|by destruct s].
  simpl. by destruct s.
Qed.

(** X6.  [sample] writes to nothing but [beta]: the transitions, the
    priorities, the cursor and the short-term queue of the buffer it leaves
    behind, whether it returned or raised, are those it found. *)
Theorem sample_changes_beta_only {A} (batch_size : nat)
    (fn : list sample_tuple -> A) (draw : nat -> Q) (s : t) :
  let s' := final_state (sample batch_size fn draw s) in
  s' = with_beta (_beta s') s
  /\ _ltmemory s' = _ltmemory s /\ _sum_tree s' = _sum_tree s
  /\ _ptr s' = _ptr s /\ _stmemory s' = _stmemory s.
Proof.
  simpl. rewrite (sample_frame batch_size fn draw s). by destruct s.
Qed.

(** X7.  An empty batch: while [beta] is 0 the call returns the vectorized
    empty list of samples, no index and no weight, and anneals [beta]; once
    [beta] is not 0 the maximum of an empty weight array raises
    [ValueError] and [beta] stays. *)
Theorem sample_empty_batch {A} (fn : list sample_tuple -> A)
    (draw : nat -> Q) (s : t) :
  sample 0 fn draw s
  = if Qeq_bool (_beta s) 0
    then Return (fn [], [], [])
                (with_beta (Qmin (_beta s + _beta_inc s) (_beta_max s)) s)
    else Throw ValueError s.
Proof.
  unfold sample. simpl. unfold mbind at 1. unfold M_bind, bind, lift.
  by destruct (Qeq_bool (_beta s) 0).
Qed.

(** X8.  [update_samples] writes to nothing but the priority tree, and the tree
    keeps its capacity: transitions, cursor, queue and [beta] are those it
    found, also when it raises. *)
Theorem update_samples_changes_tree_only (errors : ndarray)
    (indexes : list nat) (s : t) :
  let s' := final_state (update_samples errors indexes s) in
  s' = with_sum_tree (_sum_tree s') s
  /\ SumTree.capacity (_sum_tree s') = SumTree.capacity (_sum_tree s).
Proof.
  set (frame := fun s1 : t =>
    (_size s1, _n s1, _stmemory s1, _ltmemory s1, _ptr s1, _eps s1, _alpha s1,
     _beta s1, _beta_max s1, _beta_inc s1, SumTree.capacity (_sum_tree s1))).
  assert (frame (final_state (update_samples errors indexes s)) = frame s) as H.
  { unfold update_samples. destruct (_ && _); [|done].
    apply (for_each_preserves frame). intros [error_idx mem_idx] s1.
    unfold mbind, M_bind, bind, lift. by destruct (getitem _ _). }
  simpl. destruct (final_state _) as [tr' ? ? ? ? ? ? ? ? ? ?].
  destruct s. unfold frame in H. simpl in *.
  injection H as -> -> -> -> -> -> -> -> -> -> Hcap. by split.
Qed.

End SampleEdges.

(** ** What [len] counts *)

Section LenCounts.
Import PrioritizedBuffer.

Lemma for_each_invariant {A} (P : t -> Prop) (xs : list A) (body : A -> M t unit) :
  (forall x s, x ∈ xs -> P s -> P (final_state (body x s))) ->
  forall s, P s -> P (final_state (for_each xs body s)).
Proof.
  induction xs as [|x xs IH]; intros Hbody s Hs; [done|].
  cbn [for_each]. unfold bind.
  pose proof (Hbody x s (list_elem_of_here x xs) Hs) as H1.
  destruct (body x s) as [[] s1|e s1]; simpl in *; [|done].
  apply IH; [|done]. intros y s2 Hy. apply Hbody. by right.
Qed.

Lemma commit_ltmemory_stored (e : lt_experience) (s : t) :
  stored_is_written s -> stored_is_written (final_state (commit_ltmemory e s)).
Proof.
  unfold stored_is_written, commit_ltmemory. intros H. simpl.
  destruct (decide (_size s = 0)); simpl; rewrite dom_insert_L; by rewrite H.
Qed.

Lemma init_stored size n eps alpha arg s0 :
  init size n eps alpha arg = Ok s0 -> stored_is_written s0.
Proof.
  unfold init. destruct (decide (n = 0)); [done|].
  destruct arg as [b|b b_max steps|]; [| |done].
  - intros [= <-]. unfold stored_is_written. simpl. apply dom_empty_L.
  - destruct (decide (steps = 0%Z)); [done|].
    intros [= <-]. unfold stored_is_written. simpl. apply dom_empty_L.
Qed.

(** X4.  In a buffer whose stored slots are exactly those the tree was told
    of (as in a new buffer), [len(buffer)] is the number of transitions
    stored.  Committing a fragment, sampling, and updating the priorities
    of stored slots all keep the buffer in that condition. *)
Theorem len_counts_stored (s : t) :
  stored_is_written s ->
  len s = size (_ltmemory s)
  /\ (forall frag gamma,
        stored_is_written (final_state (commit_stmemory frag gamma s)))
  /\ (forall batch_size draw,
        stored_is_written (run_op (Sample batch_size draw) s))
  /\ (forall errors indexes,
        Forall (fun i => is_Some (_ltmemory s !! i)) indexes ->
        stored_is_written (final_state (update_samples errors indexes s))).
Proof.
  intros Hs. split; [|split; [|split]].
  - unfold len, SumTree.len. rewrite <- Hs. apply size_dom.
  - intros frag gamma.
    destruct frag as [[[[states actions] rewards] next_states] dones].
    unfold commit_stmemory.
    destruct (bool_decide (1 < _n s) && bool_decide (_n s = length (_stmemory s))).
    + unfold mbind at 1. unfold M_bind, bind.
      match goal with |- context [for_each ?xs ?body s] =>
        pose proof (for_each_invariant stored_is_written xs body) as H;
        set (o := for_each xs body s) in * end.
      assert (stored_is_written (final_state o)) as Ho.
      { apply H; [|done]. intros b s1 _ Hs1.
        unfold mbind at 1. unfold M_bind, bind, gets.
        unfold mbind at 1. unfold M_bind, bind, lift.
        destruct (aggregate _ _ _); [by apply commit_ltmemory_stored|done]. }
      by destruct o as [[] s1|e s1].
    + apply for_each_invariant; [|done]. intros b s1 _ Hs1.
      unfold mbind at 1. unfold M_bind, bind, lift.
      match goal with |- context [match ?r with Ok _ => _ | Raise _ => _ end] =>
        destruct r as [lt_exp|err] end; [|done].
      by apply commit_ltmemory_stored.
  - intros batch_size draw. simpl.
    rewrite (sample_frame batch_size (fun x => x) draw s).
    exact Hs.
  - intros errors indexes Hall.
    unfold update_samples. destruct (_ && _); [|done].
    apply (for_each_invariant
             (fun s1 => _ltmemory s1 = _ltmemory s /\ stored_is_written s1));
      [|done].
    intros [error_idx mem_idx] s1 Hin [Hlt Hs1].
    unfold mbind, M_bind, bind, lift.
    destruct (getitem _ _); [|done]. simpl. split; [done|].
    unfold stored_is_written in *. simpl. rewrite <- Hs1, Hlt.
    assert (mem_idx ∈ dom (_ltmemory s)) as Hdom.
    { apply elem_of_dom. rewrite Forall_forall in Hall. apply Hall.
      unfold enumerate in Hin.
      by apply elem_of_zip_r in Hin. }
    symmetry. apply subseteq_union_1_L. by apply singleton_subseteq_l.
Qed.

Lemma len_counts_stored_witness :
  len buffer4_one = 1.
Proof.
  assert (stored_is_written buffer4) as H0.
  { apply (init_stored 4 1 (1 # 50) (3 # 5) (BetaTuple 0 1 10)). reflexivity. }
  pose proof (commit_ltmemory_stored (experience0 1) buffer4 H0) as H1.
  destruct (len_counts_stored buffer4_one H1) as [Hlen _].
  rewrite Hlen. reflexivity.
Defined.

End LenCounts.

(** ** The Q-policy: ties, an all-false mask, the normalised Q-values *)

Section QPolicyEdges.
Import QPolicy.

Lemma qval_ltb_trans x y z :
  qval_ltb x y = true -> qval_ltb y z = true -> qval_ltb x z = true.
Proof.
  destruct x, y, z; simpl; try done.
  rewrite !Qltb_lt. apply Qlt_trans.
Qed.

Lemma qval_ltb_false_trans x y z :
  qval_ltb x y = false -> qval_ltb x z = true -> qval_ltb y z = true.
Proof.
  destruct x as [|a], y as [|b], z as [|c]; simpl; try done.
  intros Hxy. rewrite !Qltb_lt. intros Hxz.
  assert (~ (a < b)%Q) as Hn by (rewrite <- Qltb_lt; by rewrite Hxy).
  apply Qnot_lt_le in Hn. eapply Qle_lt_trans; done.
Qed.

(** The scan keeps the running best unless an entry beats it strictly, and
    then everything before the winner is strictly below it. *)
Lemma argmax_from_first (best_i : nat) (best : qval) (i : nat) (xs : list qval) :
  (argmax_from best_i best i xs = best_i
   /\ Forall (fun x => qval_ltb best x = false) xs)
  \/ exists k v,
       argmax_from best_i best i xs = i + k /\ xs !! k = Some v
       /\ qval_ltb best v = true
       /\ forall j x, j < k -> xs !! j = Some x -> qval_ltb x v = true.
Proof.
  revert best_i best i. induction xs as [|x xs IH]; intros best_i best i.
  - left. by split.
  - simpl. destruct (qval_ltb best x) eqn:Hlt.
    + right. destruct (IH i x (S i)) as [[Hr Hall]|(k & v & Hr & Hk & Hxv & Hbefore)].
      * exists 0, x. rewrite Nat.add_0_r. repeat split; try done.
        intros j y Hj. lia.
      * exists (S k), v. split; [lia|]. split; [done|].
        split; [by eapply qval_ltb_trans|].
        intros [|j] y Hj Hy; simpl in Hy.
        -- by injection Hy as <-.
        -- apply (Hbefore j); [lia|done].
    + destruct (IH best_i best (S i)) as [[Hr Hall]|(k & v & Hr & Hk & Hbv & Hbefore)].
      * left. split; [done|]. by constructor.
      * right. exists (S k), v. split; [lia|]. split; [done|]. split; [done|].
        intros [|j] y Hj Hy; simpl in Hy.
        -- injection Hy as <-. by eapply qval_ltb_false_trans.
        -- apply (Hbefore j); [lia|done].
Qed.

(** X10.  Among equal Q-values the lowest index wins: every action before the
    one [_act] returns (no mask given) has a strictly smaller Q-value. *)
Theorem act_takes_first_maximum (q_network : list Q -> list Q) (obs : list Q)
    (a j : nat) (qa qj : Q) :
  _act q_network obs None = Ok [a] ->
  q_network obs !! a = Some qa -> q_network obs !! j = Some qj -> j < a ->
  (qj < qa)%Q.
Proof.
  unfold _act. intros Hact Ha Hj Hlt.
  destruct (q_network obs) as [|x xs] eqn:Hq; [done|].
  simpl in Hact. injection Hact as Hact.
  destruct (argmax_from_first 0 (Fin x) 1 (map Fin xs))
    as [[Hr _]|(k & v & Hr & Hk & Hxv & Hbefore)]; [lia|].
  assert (a = S k) as -> by lia. simpl in Ha.
  rewrite list_lookup_fmap, Ha in Hk. injection Hk as <-.
  destruct j as [|j]; simpl in Hj.
  - injection Hj as <-. simpl in Hxv. by apply Qltb_lt.
  - specialize (Hbefore j (Fin qj)). simpl in Hbefore.
    apply Qltb_lt, Hbefore; [lia|]. by rewrite list_lookup_fmap, Hj.
Qed.

Lemma act_takes_first_maximum_witness :
  (2 < 7)%Q.
Proof.
  apply (act_takes_first_maximum (fun _ => [2; 7; 7]%Q) [0%Q] 1 0 7 2);
    [reflexivity|reflexivity|reflexivity|lia].
Defined.

(** X11.  When the mask allows no action at all, [_act] does not fail: every
    entry is minus infinity and action 0 is returned although it is
    masked out. *)
Theorem act_all_masked (q_network : list Q -> list Q) (obs : list Q)
    (mask : list bool) :
  length mask = length (q_network obs) -> q_network obs <> [] ->
  Forall (fun m => m = false) mask ->
  _act q_network obs (Some mask) = Ok [0].
Proof.
  intros Hlen Hne Hall. unfold _act, where_mask.
  destruct (decide (length mask = length (q_network obs))); [|done].
  assert (zip_with (fun (m : bool) (q : Q) => if m then Fin q else NInf)
            mask (q_network obs)
          = replicate (length mask) NInf) as ->.
  { clear e. revert Hlen. generalize (q_network obs) as qs.
    induction Hall as [|m mask -> _ IH]; intros [|q qs] Hlen; simpl in *;
      try done.
    f_equal. apply IH. lia. }
  destruct mask as [|m mask].
  { destruct (q_network obs); [done|simpl in Hlen; lia]. }
  simpl.
  destruct (argmax_from_first 0 NInf 1 (replicate (length mask) NInf))
    as [[-> _]|(k & v & _ & Hk & Hlt & _)]; [done|].
  apply lookup_replicate in Hk as [-> _]. done.
Qed.

Lemma act_all_masked_witness :
  _act (fun _ => [2; 7]%Q) [0%Q] (Some [false; false]) = Ok [0].
Proof.
  apply (act_all_masked (fun _ => [2; 7]%Q) [0%Q] [false; false]).
  - reflexivity.
  - discriminate.
  - repeat constructor.
Defined.

Lemma Qsum_div (d : Q) (xs : list Q) :
  (Qsum (map (fun q => q / d) xs) == Qsum xs / d)%Q.
Proof.
  induction xs as [|x xs IH]; simpl.
  - unfold Qdiv. ring.
  - rewrite IH. unfold Qdiv. ring.
Qed.

(** X12.  [_distribution] divides the Q-values by their sum: when that sum is
    not zero the result has one finite entry per action and the entries add
    up to 1; when it is zero no entry is finite. *)
Theorem distribution_sums_to_one (q_network : list Q -> list Q) (obs : list Q) :
  (~ (Qsum (q_network obs) == 0)%Q ->
   exists ps, _distribution q_network obs = map Some ps
     /\ length ps = length (q_network obs)
     /\ (Qsum ps == 1)%Q)
  /\ ((Qsum (q_network obs) == 0)%Q ->
      _distribution q_network obs = map (fun _ => None) (q_network obs)).
Proof.
  unfold _distribution. split.
  - intros Hne.
    exists (map (fun q => (q / Qsum (q_network obs))%Q) (q_network obs)).
    split; [|split].
    + rewrite map_map. apply map_ext. intros q.
      destruct (Qeq_bool (Qsum (q_network obs)) 0) eqn:Hz; [|done].
      by apply Qeq_bool_eq in Hz.
    + apply length_map.
    + rewrite Qsum_div. field. exact Hne.
  - intros Hz. apply map_ext. intros q.
    by rewrite (Qeq_eq_bool _ _ Hz).
Qed.

End QPolicyEdges.

(** ** The DQN agent: loss mask, batches, synchronisation schedule *)

Section DQNMore.
Import DQNAgent.

Lemma Qpower_nat_succ (q : Q) (k : nat) :
  (q ^ Z.of_nat (S k) == q * q ^ Z.of_nat k)%Q.
Proof.
  rewrite Nat2Z.inj_succ, <- Z.add_1_l.
  rewrite Qpower_plus' by lia. reflexivity.
Qed.

(** Squared differences between a row of current estimates and its target
    row, the columns being numbered from [k]. *)
Lemma masked_squares_sum (a : nat) (target : Q) (k : nat) (cs : list Q) :
  Qeq
    (Qsum (zip_with (fun t p => ((p - t) * (p - t))%Q) cs
             (zip_with (fun (u : bool) '(t, c) => if u then t else c)
                (map (fun i => bool_decide (i = a)) (seq k (length cs)))
                (zip (replicate (length cs) target) cs))))
    (if decide (k <= a)
     then match cs !! (a - k) with
          | Some qa => ((target - qa) * (target - qa))%Q
          | None => 0%Q
          end
     else 0%Q).
Proof.
  revert k. induction cs as [|c cs IH]; intros k; simpl.
  - destruct (decide (k <= a)); reflexivity.
  - rewrite IH. destruct (decide (k <= a)) as [Hle|Hgt].
    + destruct (decide (k = a)) as [->|Hne].
      * rewrite bool_decide_eq_true_2 by done. rewrite Nat.sub_diag. simpl.
        destruct (decide (S a <= a)); [lia|]. ring.
      * rewrite bool_decide_eq_false_2 by done.
        destruct (decide (S k <= a)); [|lia].
        replace (a - k) with (S (a - S k)) by lia. simpl.
        destruct (cs !! (a - S k)); ring.
    + rewrite bool_decide_eq_false_2 by lia.
      destruct (decide (S k <= a)); [lia|]. ring.
Qed.

(** X13.  Only the Q-value of the action taken is driven toward the target: the
    loss of one sample is the squared distance between the target and the
    current estimate of that action, averaged over the [action_shape]
    outputs; the other outputs contribute nothing.  An action index outside
    the outputs selects no entry at all and the sample's loss is 0. *)
Theorem td_loss_of_taken_action (action_shape a : nat) (target : Q)
    (current : list Q) :
  length current = action_shape -> 0 < action_shape ->
  (forall qa, current !! a = Some qa ->
     (mean_squared_error current (target_q_row action_shape a target current)
      == (target - qa) * (target - qa) / inject_Z (Z.of_nat action_shape))%Q)
  /\ (action_shape <= a ->
      (mean_squared_error current (target_q_row action_shape a target current)
       == 0)%Q).
Proof.
  intros Hlen Hpos. subst action_shape.
  assert (Qeq
    (mean_squared_error current (target_q_row (length current) a target current))
    (Qdiv (if decide (0 <= a)
           then match current !! (a - 0) with
                | Some qa => ((target - qa) * (target - qa))%Q
                | None => 0%Q
                end
           else 0%Q) (inject_Z (Z.of_nat (length current))))) as Hmse.
  { unfold mean_squared_error, reduce_mean, target_q_row, range.
    rewrite masked_squares_sum.
    rewrite !length_zip_with, length_map, length_seq, length_replicate.
    replace (length current `min` (length current `min`
              (length current `min` length current))) with (length current)
      by lia.
    reflexivity. }
  rewrite Nat.sub_0_r in Hmse.
  destruct (decide (0 <= a)); [|lia].
  split.
  - intros qa Hqa. by rewrite Hmse, Hqa.
  - intros Hout. rewrite Hmse, (lookup_ge_None_2 current a) by done.
    unfold Qdiv. ring.
Qed.

Lemma td_loss_of_taken_action_witness :
  (mean_squared_error [1; 2; 3] (target_q_row 3 1 5 [1; 2; 3])
   == (5 - 2) * (5 - 2) / 3)%Q.
Proof.
  destruct (td_loss_of_taken_action 3 1 5 [1; 2; 3]%Q) as [H _].
  - reflexivity.
  - lia.
  - exact (H 2%Q eq_refl).
Defined.

Lemma traverse_reshape {A} (n : nat) (g : A -> observation) (xs : list A) :
  (Forall (fun x => length (g x) = n) xs
   /\ traverse (fun x => reshape n (g x)) xs = Ok (map g xs))
  \/ (Exists (fun x => length (g x) <> n) xs
      /\ traverse (fun x => reshape n (g x)) xs = Raise ValueError).
Proof.
  induction xs as [|x xs IH]; cbn [traverse map].
  - left. by split.
  - assert (reshape n (g x)
            = if decide (length (g x) = n) then Ok (g x) else Raise ValueError)
      as -> by done.
    destruct (decide (length (g x) = n)) as [Hx|Hx].
    + destruct IH as [[Hall ->]|[Hex ->]].
      * left. split; [by constructor|done].
      * right. split; [by apply Exists_cons_tl|done].
    + right. split; [by apply Exists_cons_hd|done].
Qed.

Lemma zip5_maps (mini_batch : list transition) :
  zip5 (map (fun t : transition => t.1.1.1.1) mini_batch,
        map (fun t : transition => t.1.1.1.2) mini_batch,
        map (fun t : transition => t.1.1.2) mini_batch,
        map (fun t : transition => t.1.2) mini_batch,
        map (fun t : transition => t.2) mini_batch)
  = mini_batch.
Proof.
  unfold zip5. induction mini_batch as [|[[[[s a] r] s'] d] rest IH]; [done|].
  simpl in *. by rewrite IH.
Qed.

(** X14.  [_vectorize_samples] returns exactly when every state and next state of
    the mini-batch has [state_shape] entries; the five batches it returns
    then have one entry per sample and, put side by side, give the
    mini-batch back.  One state of another size makes the call raise
    [ValueError]. *)
Theorem vectorize_samples_round_trip (state_shape : nat)
    (mini_batch : list transition) :
  (Forall (fun t : transition => length t.1.1.1.1 = state_shape
                                 /\ length t.1.2 = state_shape) mini_batch ->
   exists mem, _vectorize_samples state_shape mini_batch = Ok mem
     /\ zip5 mem = mini_batch
     /\ length mem.1.1.1.1 = length mini_batch
     /\ length mem.2 = length mini_batch)
  /\ (Exists (fun t : transition => length t.1.1.1.1 <> state_shape
                                    \/ length t.1.2 <> state_shape) mini_batch ->
      _vectorize_samples state_shape mini_batch = Raise ValueError).
Proof.
  unfold _vectorize_samples, mbind, result_bind, rbind. split.
  - intros Hall.
    destruct (traverse_reshape state_shape (fun t : transition => t.1.1.1.1)
                mini_batch) as [[_ ->]|[Hex _]].
    2:{ apply Exists_exists in Hex as (t & Hin & Hbad).
        rewrite Forall_forall in Hall. by destruct (Hall t Hin). }
    destruct (traverse_reshape state_shape (fun t : transition => t.1.2)
                mini_batch) as [[_ ->]|[Hex _]].
    2:{ apply Exists_exists in Hex as (t & Hin & Hbad).
        rewrite Forall_forall in Hall. by destruct (Hall t Hin). }
    eexists. split; [reflexivity|]. split; [apply zip5_maps|].
    simpl. by rewrite !length_map.
  - intros Hex.
    destruct (traverse_reshape state_shape (fun t : transition => t.1.1.1.1)
                mini_batch) as [[Hs ->]|[_ ->]]; [|done].
    destruct (traverse_reshape state_shape (fun t : transition => t.1.2)
                mini_batch) as [[Hn ->]|[_ ->]]; [|done].
    exfalso. apply Exists_exists in Hex as (t & Hin & Hbad).
    rewrite Forall_forall in Hs, Hn.
    specialize (Hs t Hin). specialize (Hn t Hin). tauto.
Qed.

Lemma update_target_length (tau : Q) (source target : list Q) :
  length (_update_target tau source target) = length target.
Proof.
  unfold _update_target.
  rewrite length_app, length_zip_with, length_drop. lia.
Qed.

(** X15.  Repeated synchronisation against fixed online variables closes the gap
    geometrically: after [k] calls the distance of a target variable to its
    online counterpart is [(1 - tau)^k] times what it was. *)
Theorem soft_update_converges (k : nat) (tau : Q) (source target : list Q)
    (i : nat) (sv tv : Q) :
  source !! i = Some sv -> target !! i = Some tv ->
  exists tv', sync_n k tau source target !! i = Some tv'
    /\ (tv' - sv == (1 - tau) ^ Z.of_nat k * (tv - sv))%Q.
Proof.
  intros Hs Ht. induction k as [|k (tv' & Hk & Hgap)].
  - exists tv. split; [done|]. simpl. ring.
  - unfold sync_n in *. cbn [Nat.iter].
    eexists. split; [by apply update_target_lookup|].
    rewrite Qpower_nat_succ.
    transitivity ((1 - tau) * (tv' - sv))%Q; [ring|].
    rewrite Hgap. ring.
Qed.

Lemma soft_update_converges_witness :
  exists tv', sync_n 2 (1 # 2) [4%Q] [0%Q] !! 0 = Some tv'
    /\ (tv' - 4 == (1 - (1 # 2)) ^ 2 * (0 - 4))%Q.
Proof.
  apply (soft_update_converges 2 (1 # 2) [4%Q] [0%Q] 0 4 0); reflexivity.
Defined.

(** X16.  One training step leaves the target variables alone unless the new
    step count is a multiple of [target_update_period]; then they are
    interpolated toward the online variables the optimizer has just
    produced, and with [tau = 1] they equal them.  The new step count is
    the old one plus one as an int32: one more below [2^31 - 1], and
    [-2^31] after [2^31 - 1].  The exploration rate is decayed at every
    step. *)
Theorem train_syncs_on_period (memory_sample : nat -> result memories)
    (float_loss : list Q -> list Q -> memories -> fval)
    (apply_gradients : list Q -> list Q -> memories -> list Q)
    (update_eps : Q -> Q) (batch_size : nat) (mem : memories) (s : t) :
  memory_sample batch_size = Ok mem -> _target_update_period s <> 0 ->
  (Z.of_nat (_target_update_period s) < 2 ^ 31)%Z ->
  (- 2 ^ 31 <= _train_step s < 2 ^ 31)%Z ->
  exists loss s',
    _train memory_sample float_loss apply_gradients update_eps batch_size s
    = Return loss s'
    /\ _train_step s' = wrap_int32 (_train_step s + 1)
    /\ ((_train_step s < 2 ^ 31 - 1)%Z ->
        _train_step s' = (_train_step s + 1)%Z)
    /\ (_train_step s = (2 ^ 31 - 1)%Z -> _train_step s' = (- 2 ^ 31)%Z)
    /\ epsilon s' = update_eps (epsilon s)
    /\ ((_train_step s' mod Z.of_nat (_target_update_period s))%Z <> 0%Z ->
        target_variables s' = target_variables s)
    /\ ((_train_step s' mod Z.of_nat (_target_update_period s))%Z = 0%Z ->
        target_variables s'
        = _update_target (_tau s) (online_variables s') (target_variables s)
        /\ (_tau s = 1%Q ->
            length (online_variables s') = length (target_variables s) ->
            Forall2 Qeq (target_variables s') (online_variables s'))).
Proof.
  intros Hmem Hperiod _ Hrange. unfold _train. rewrite Hmem.
  destruct (decide (_target_update_period s = 0)); [done|].
  eexists. eexists. split; [reflexivity|]. simpl.
  split; [done|]. split.
  { intros Hlt. unfold wrap_int32.
    rewrite Z.mod_small by lia. lia. }
  split.
  { intros ->. reflexivity. }
  split; [done|].
  destruct (decide ((wrap_int32 (_train_step s + 1)
                     mod Z.of_nat (_target_update_period s))%Z = 0%Z));
    split; try done.
  intros _. split; [done|].
  intros -> Hlen. by apply update_target_hard_copy.
Qed.

Lemma train_syncs_on_period_witness :
  exists loss s',
    _train (fun _ => Ok dqn_batch0) (fun _ _ _ => Finite 1) (fun _ _ _ => [7%Q])
      (fun e => e) 1 (mk [1%Q] [1%Q] 1 1 0 (1 # 10))
    = Return loss s'
    /\ Forall2 Qeq (target_variables s') [7%Q].
Proof.
  destruct (train_syncs_on_period (fun _ => Ok dqn_batch0)
              (fun _ _ _ => Finite 1) (fun _ _ _ => [7%Q]) (fun e => e) 1
              dqn_batch0 (mk [1%Q] [1%Q] 1 1 0 (1 # 10)))
    as (loss & s' & Hrun & _ & _ & _ & _ & _ & Hsync).
  - reflexivity.
  - discriminate.
  - reflexivity.
  - split; [discriminate|reflexivity].
  - exists loss, s'. split; [exact Hrun|].
    injection Hrun as _ <-.
    destruct Hsync as [_ Hcopy]; [reflexivity|].
    apply Hcopy; reflexivity.
Defined.

End DQNMore.

(** ** The returns of a trajectory *)

Section Returns.
Import VPG.

Lemma enumerate_lookup {A} (xs : list A) (j : nat) (x : A) :
  xs !! j = Some x -> PrioritizedBuffer.enumerate xs !! j = Some (j, x).
Proof.
  intros Hx. unfold PrioritizedBuffer.enumerate, range.
  rewrite lookup_zip_with, lookup_seq_lt by (by eapply lookup_lt_Some).
  simpl. by rewrite Hx.
Qed.

Lemma enumerate_length {A} (xs : list A) :
  length (PrioritizedBuffer.enumerate xs) = length xs.
Proof.
  unfold PrioritizedBuffer.enumerate, range.
  rewrite length_zip_with, length_seq. lia.
Qed.

Lemma array_dtype_float (rewards : list VPG.pynum) :
  Exists (fun r => is_int r = false) rewards -> array_dtype rewards = float64.
Proof.
  intros Hex. unfold array_dtype.
  destruct rewards as [|r rewards]; [done|].
  destruct (forallb is_int (r :: rewards)) eqn:Hall; [|done].
  rewrite forallb_forall in Hall. apply Exists_exists in Hex.
  destruct Hex as (x & Hin & Hx).
  rewrite Hall in Hx; [done|]. by apply list_elem_of_In.
Qed.

(** After [j] turns of the loop over a float array the last [j + 1]
    returns are final. *)
Lemma returns_loop_invariant (gamma : Q) (rewards : list pynum)
    (uninit : nat -> Q) (m : nat) (r_last : pynum) (j : nat) :
  length rewards = S m -> rewards !! m = Some r_last -> j <= m ->
  let ret :=
    foldl (returns_step float64 gamma (S m))
      (<[m := num_val r_last]> (map uninit (range (S m))))
      (take j (PrioritizedBuffer.enumerate (reverse (take m rewards)))) in
  length ret = S m
  /\ forall i, m - j <= i -> i < S m ->
       exists g, ret !! i = Some g
                 /\ (g == discounted_sum gamma (drop i (map num_val rewards)))%Q.
Proof.
  intros Hlen Hlast. induction j as [|j IH]; intros Hj.
  - rewrite take_0. cbn [foldl]. split.
    + rewrite length_insert, length_map. apply length_seq.
    + intros i Hi1 Hi2. assert (i = m) as -> by lia.
      exists (num_val r_last). split.
      * apply list_lookup_insert_eq. rewrite length_map. unfold range.
        rewrite length_seq. lia.
      * assert (map num_val rewards !! m = Some (num_val r_last)) as Hlast'
          by (by rewrite list_lookup_fmap, Hlast).
        rewrite (drop_S _ _ _ Hlast'), drop_ge by (rewrite length_map; lia).
        simpl. ring.
  - destruct IH as [Hlen' Hinv]; [lia|].
    assert (exists r, rewards !! (m - 1 - j) = Some r) as [r Hr].
    { apply lookup_lt_is_Some. lia. }
    assert (PrioritizedBuffer.enumerate (reverse (take m rewards)) !! j
            = Some (j, r)) as Hpair.
    { apply enumerate_lookup. rewrite reverse_lookup.
      - rewrite length_take, lookup_take_lt by lia.
        replace (length rewards `min` m - S j) with (m - 1 - j) by lia.
        replace (m `min` length rewards - S j) with (m - 1 - j) by lia.
        done.
      - rewrite length_take. lia. }
    rewrite (take_S_r _ _ _ Hpair), foldl_app. cbn [foldl].
    set (ret := foldl _ _ _) in *. unfold returns_step, astype.
    replace (S m - j - 2) with (m - 1 - j) by lia.
    replace (S m - j - 1) with (m - j) by lia.
    split; [by rewrite length_insert|].
    intros i Hi1 Hi2.
    destruct (decide (i = m - 1 - j)) as [->|Hne].
    + destruct (Hinv (m - j)) as (g' & Hg' & Hgap); [lia|lia|].
      eexists. split; [apply list_lookup_insert_eq; lia|].
      rewrite Hg'. simpl. rewrite Hgap.
      assert (map num_val rewards !! (m - 1 - j) = Some (num_val r)) as Hr'
        by (by rewrite list_lookup_fmap, Hr).
      rewrite (drop_S _ _ _ Hr'). simpl.
      replace (S (m - 1 - j)) with (m - j) by lia. reflexivity.
    + rewrite list_lookup_insert_ne by done. apply Hinv; lia.
Qed.

(** X17.  When some reward of the trajectory is a float, the loop of
    [_train] turns the rewards into rewards to go: entry [i] of the result
    is the discounted sum
    [r_i + gamma * r_(i+1) + gamma^2 * r_(i+2) + ...] up to the end of the
    trajectory, whatever the fresh array held.  When every reward is an
    integer the array holds integers and each store drops the fraction:
    three rewards of 1 with [gamma = 1/2] give the returns 1, 1, 1.  On an
    empty trajectory the first read [rewards[-1]] raises [IndexError]. *)
Theorem discounted_returns_are_rewards_to_go (gamma : Q) (rewards : list pynum)
    (uninit : nat -> Q) :
  (Exists (fun r => is_int r = false) rewards ->
   exists rs, discounted_returns gamma rewards uninit = Ok rs
     /\ length rs = length rewards
     /\ forall i, i < length rewards ->
          exists g, rs !! i = Some g
            /\ (g == discounted_sum gamma (drop i (map num_val rewards)))%Q)
  /\ discounted_returns (1 # 2) [PyInt 1; PyInt 1; PyInt 1] uninit
     = Ok [1%Q; 1%Q; 1%Q]
  /\ (rewards = [] ->
      discounted_returns gamma rewards uninit = Raise IndexError).
Proof.
  split; [|split; [reflexivity|by intros ->]].
  intros Hex. unfold discounted_returns.
  rewrite (array_dtype_float rewards Hex). cbn [astype].
  destruct (length rewards) as [|m] eqn:Hlen.
  { destruct rewards; [by apply Exists_nil in Hex|done]. }
  assert (exists r_last, rewards !! m = Some r_last) as [r_last Hlast].
  { apply lookup_lt_is_Some. lia. }
  assert (last rewards = Some r_last) as ->.
  { rewrite last_lookup, Hlen. done. }
  replace (S m - 1) with m by lia.
  destruct (returns_loop_invariant gamma rewards uninit m r_last m Hlen Hlast)
    as [Hlen' Hinv]; [lia|].
  rewrite take_ge in Hlen', Hinv
    by (rewrite enumerate_length, length_reverse, length_take; lia).
  eexists. split; [reflexivity|]. split; [done|].
  intros i Hi. apply Hinv; lia.
Qed.

Lemma discounted_returns_are_rewards_to_go_witness :
  exists rs,
    discounted_returns (1 # 2) [PyFloat 1; PyInt 1; PyInt 1] (fun _ => 0%Q)
    = Ok rs
    /\ exists g, rs !! 0 = Some g /\ (g == 7 # 4)%Q.
Proof.
  destruct (discounted_returns_are_rewards_to_go (1 # 2)
              [PyFloat 1; PyInt 1; PyInt 1] (fun _ => 0%Q)) as [Hfloat _].
  destruct Hfloat as (rs & Hrun & _ & Hsum).
  - constructor. reflexivity.
  - exists rs. split; [exact Hrun|].
    destruct (Hsum 0) as (g & Hg & Hval); [simpl; lia|].
    exists g. split; [exact Hg|]. rewrite Hval. reflexivity.
Defined.

End Returns.

(** ** Every reachable buffer *)

Section Reachable.
Import PrioritizedBuffer.

Lemma commit_ltmemory_inv (e : lt_experience) (s : t) :
  0 < _size s -> buffer_inv s ->
  buffer_inv (final_state (commit_ltmemory e s))
  /\ _size (final_state (commit_ltmemory e s)) = _size s.
Proof.
  intros Hsize ([Hwf Hcap] & Hptr & Hkeys & Hq).
  rewrite commit_ltmemory_step by done. simpl.
  split; [|done]. split; [|split; [|split]]; try done.
  - split; [by apply wf_set|done].
  - simpl. apply Nat.mod_upper_bound. lia.
  - intros k. simpl. destruct (decide (k = _ptr s)) as [->|Hne]; [done|].
    rewrite lookup_insert_ne by done. apply Hkeys.
Qed.

Lemma run_op_inv (o : op) (s : t) :
  0 < _size s -> buffer_inv s ->
  buffer_inv (run_op o s) /\ _size (run_op o s) = _size s.
Proof.
  intros Hsize Hinv. destruct o as [frag gamma|bs draw|errors indexes|].
  - assert (commits_directly s) as Hdirect.
    { destruct Hinv as (_ & _ & _ & Hq). intros [H1 H2].
      rewrite Hq in H2. simpl in H2. lia. }
    simpl. rewrite commit_stmemory_unfold by done.
    apply (for_each_invariant
             (fun s1 => buffer_inv s1 /\ _size s1 = _size s)); [|done].
    intros b s1 _ [Hinv1 Hsz1].
    unfold mbind at 1. unfold M_bind, bind, lift.
    destruct (direct_row frag b) as [e|err]; [|done].
    destruct (commit_ltmemory_inv e s1) as [Hi Hs']; [lia|done|].
    split; [exact Hi|]. rewrite <- Hsz1. exact Hs'.
  - simpl. rewrite (sample_frame bs (fun x => x) draw s).
    by destruct s.
  - simpl. unfold update_samples. destruct (_ && _); [|done].
    apply (for_each_invariant
             (fun s1 => buffer_inv s1 /\ _size s1 = _size s)); [|done].
    intros [error_idx mem_idx] s1 _ [Hinv1 Hsz1].
    unfold mbind, M_bind, bind, lift.
    destruct (getitem _ _); [|done]. simpl.
    destruct Hinv1 as ([Hwf Hcap] & Hptr & Hkeys & Hq).
    split; [|done]. split; [|split; [|split]]; try done.
    split; [by apply wf_set|done].
  - simpl. destruct Hinv as (Hwf & Hptr & Hkeys & Hq).
    split; [|done]. by split; [|split; [|split]].
Qed.

Lemma init_inv size n eps alpha arg s0 :
  init size n eps alpha arg = Ok s0 ->
  0 < size -> buffer_inv s0 /\ _size s0 = size.
Proof.
  intros Hinit Hsize. revert Hinit.
  unfold init. destruct (decide (n = 0)); [done|].
  assert (forall b b_max inc,
    buffer_inv (mk (SumTree.create size) size (n - 1) [] ∅ 0 eps alpha b b_max inc))
    as Hfresh.
  { intros b b_max inc. split; [|split; [|split]]; simpl; try done.
    - split; [apply wf_create|done].
    - intros k [x Hx]. simpl in Hx. by rewrite lookup_empty in Hx. }
  destruct arg as [b|b b_max steps|]; [| |done].
  - intros [= <-]. split; [apply Hfresh|done].
  - destruct (decide (steps = 0%Z)); [done|].
    intros [= <-]. split; [apply Hfresh|done].
Qed.

(** X3.  Whatever is done with a buffer of positive size after its
    construction (commits, samples, priority updates, clearing, in any
    order and whether they return or raise), its cursor stays below
    [size], every key of the long-term dict is a slot below [size], the
    tree keeps the buffer's capacity, and the short-term queue stays
    empty: no commit ever enters the aggregation branch. *)
Theorem buffer_invariants_hold (sz n : nat) (eps alpha : Q) (arg : beta_arg)
    (s0 : t) (ops : list op) :
  init sz n eps alpha arg = Ok s0 -> 0 < sz ->
  let s := run ops s0 in
  _size s = sz /\ _ptr s < sz /\ keys_in_range s
  /\ size (_ltmemory s) <= sz
  /\ SumTree.capacity (_sum_tree s) = sz
  /\ _stmemory s = [] /\ commits_directly s.
Proof.
  intros Hinit Hsize.
  destruct (init_inv _ _ _ _ _ _ Hinit Hsize) as [Hinv0 Hsz0].
  assert (forall s1, buffer_inv s1 -> _size s1 = sz ->
                     buffer_inv (run ops s1) /\ _size (run ops s1) = sz)
    as Hrun.
  { induction ops as [|o ops IH]; intros s1 Hinv1 Hsz1; [done|].
    simpl. destruct (run_op_inv o s1) as [Hi Hs]; [lia|done|].
    apply IH; [done|lia]. }
  destruct (Hrun s0 Hinv0 Hsz0) as [([Hwf Hcap] & Hptr & Hkeys & Hq) Hsz].
  simpl. split; [done|]. split; [lia|]. split; [done|].
  split; [rewrite <- Hsz; by apply keys_in_range_size|].
  split; [lia|]. split; [done|].
  intros [H1 H2]. rewrite Hq in H2. simpl in H2. lia.
Qed.

Lemma buffer_invariants_hold_witness :
  _ptr (run [Commit (unit_fragment 1) (1 # 2); Sample 1 (fun _ => 0%Q)] buffer4) < 4.
Proof.
  destruct (buffer_invariants_hold 4 1 (1 # 50) (3 # 5) (BetaTuple 0 1 10) buffer4
              [Commit (unit_fragment 1) (1 # 2); Sample 1 (fun _ => 0%Q)])
    as (_ & Hptr & _).
  - reflexivity.
  - lia.
  - exact Hptr.
Defined.

End Reachable.
